(** * get_imgs: the bounded download pipeline of [modules.go]

    A shallow embedding of the Go package [modules] (Requester, Spawner,
    Getter, Writer, validFilenameMaker) and of the receive loop of [main].

    - Part 1 models the pieces of the Go standard library the package calls
      ([path/filepath], [strings], [fmt], [os]) on Unix paths.
    - Part 2 embeds [validFilenameMaker] and [Writer.Write] as functions
      over a file system, in a small state monad.
    - Part 3 embeds the goroutines as a transition system: one program
      counter per goroutine, unbuffered channels as rendezvous steps, the
      [sync.WaitGroup] as a counter, and a scheduler that picks the next
      step.
    - Part 4 proves the properties of the pipeline.
    - Part 5 says more about the naming and the writing of files, and
      about the search request.
    - Part 6 says more about the runs: what [main] receives and in which
      order, how the process ends, which Getters are left behind, which
      files are written and which pictures are fetched.
    - Part 7 embeds the test of [validFilenameMaker].
    - Part 8 follows the scheduler that handles one descriptor at a
      time, to the end of a run that saves every picture. *)

From Stdlib Require Import ZArith Lia Ascii String List.
From stdpp Require Import base decidable option strings pretty list gmap.

Local Open Scope string_scope.

(** ** Part 1. The Go standard library, as far as the package uses it *)

(** [error] values. [os.IsNotExist] only asks whether an error is the
    ENOENT of a path operation; every other error is kept by its message. *)
Inductive error : Type :=
| ENOENT (op path : string)
| errorString (msg : string).

Global Instance error_eq_dec : EqDecision error.
Proof. solve_decision. Defined.

Module filepath.

Definition IsPathSeparator (c : ascii) : bool := bool_decide (c = "/"%char).

(** The loop of [Ext]: [before] holds path[0..i] backwards, [after] is
    path[i+1:]. *)
Fixpoint ext_scan (before after : list ascii) : list ascii :=
  match before with
  | [] => []
  | c :: before' =>
      if IsPathSeparator c then []
      else if bool_decide (c = "."%char) then c :: after
      else ext_scan before' (c :: after)
  end.

(** [filepath.Ext]: the suffix beginning at the final dot in the final
    element of path; empty if there is no dot. *)
Definition Ext (path : string) : string :=
  string_of_list_ascii (ext_scan (rev (list_ascii_of_string path)) []).

Fixpoint strip_trailing (backwards : list ascii) : list ascii :=
  match backwards with
  | c :: more => if IsPathSeparator c then strip_trailing more else backwards
  | [] => []
  end.

Fixpoint last_element (backwards acc : list ascii) : list ascii :=
  match backwards with
  | [] => acc
  | c :: more => if IsPathSeparator c then acc else last_element more (c :: acc)
  end.

(** [filepath.Base]: the last element of path, trailing separators
    removed first; "." for the empty path, "/" for a path of separators
    only. *)
Definition Base (path : string) : string :=
  if bool_decide (path = "") then "."
  else
    let e := last_element (strip_trailing (rev (list_ascii_of_string path))) [] in
    if bool_decide (e = []) then "/" else string_of_list_ascii e.

(** The elements of a path between separators, empty ones included. *)
Fixpoint elements (p cur : list ascii) : list string :=
  match p with
  | [] => [string_of_list_ascii (rev cur)]
  | c :: more =>
      if IsPathSeparator c
      then string_of_list_ascii (rev cur) :: elements more []
      else elements more (c :: cur)
  end.

(** The rewriting loop of [Clean] on elements: [stack] holds the elements
    written so far that a ".." may still remove (innermost first), [ups]
    counts the leading ".." elements of a path that is not rooted. *)
Fixpoint clean_elements (rooted : bool) (els : list string)
    (ups : nat) (stack : list string) : list string :=
  match els with
  | [] => replicate ups ".." ++ rev stack
  | e :: els' =>
      if bool_decide (e = "") || bool_decide (e = ".")
      then clean_elements rooted els' ups stack
      else if bool_decide (e = "..")
      then match stack with
           | _ :: stack' => clean_elements rooted els' ups stack'
           | [] => clean_elements rooted els' (if rooted then ups else S ups) []
           end
      else clean_elements rooted els' ups (e :: stack)
  end.

(** [filepath.Clean]: the shortest path name equivalent to path by
    purely lexical processing. *)
Definition Clean (path : string) : string :=
  match path with
  | "" => "."
  | String c _ =>
      let rooted := IsPathSeparator c in
      let out := String.concat "/"
                   (clean_elements rooted (elements (list_ascii_of_string path) []) 0 []) in
      if rooted then "/" +:+ out
      else if bool_decide (out = "") then "." else out
  end.

Fixpoint drop_last_element (backwards : list ascii) : list ascii :=
  match backwards with
  | [] => []
  | c :: more => if IsPathSeparator c then backwards else drop_last_element more
  end.

(** [filepath.Dir]: all but the last element of path, cleaned. *)
Definition Dir (path : string) : string :=
  Clean (string_of_list_ascii
           (rev (drop_last_element (rev (list_ascii_of_string path))))).

(** [filepath.Join]: the elements from the first non-empty one on, joined
    by separators and cleaned. *)
Fixpoint Join (elem : list string) : string :=
  match elem with
  | [] => ""
  | e :: rest =>
      if bool_decide (e = "") then Join rest
      else Clean (String.concat "/" elem)
  end.

End filepath.

Module path.

(** [path.Join], which the test of the package uses: on slash-separated
    paths it is what [filepath.Join] is on Unix. *)
Definition Join (elem : list string) : string := filepath.Join elem.

End path.

Module strings.

Definition HasSuffix (s suffix : string) : bool :=
  (String.length suffix <=? String.length s)%nat
  && bool_decide (substring (String.length s - String.length suffix)
                    (String.length suffix) s = suffix).

(** [strings.TrimSuffix] *)
Definition TrimSuffix (s suffix : string) : string :=
  if HasSuffix s suffix
  then substring 0 (String.length s - String.length suffix) s
  else s.

End strings.

Module fmt.


(** [doPrintf] on a simple format with one int operand [a]; [argNum] is
    the number of operands used so far. A directive met when the operand
    is used up prints as [%!d(MISSING)], a format ending in [%] as
    [%!(NOVERB)], an operand left over as [%!(EXTRA int=a)]. What fmt
    prints for any other directive is not described here: such a
    directive is kept as it is. *)
Definition extra (argNum : nat) (a : Z) : string :=
  match argNum with
  | O => "%!(EXTRA int=" +:+ pretty a +:+ ")"
  | S _ => ""
  end.

Fixpoint doPrintf (format : string) (argNum : nat) (a : Z) : string :=
  match format with
  | "" => extra argNum a
  | String c rest =>
      if bool_decide (c = "%"%char)
      then match rest with
           | "" => "%!(NOVERB)" +:+ extra argNum a
           | String verb rest' =>
               if bool_decide (verb = "%"%char)
               then String "%" (doPrintf rest' argNum a)
               else if bool_decide (verb = "d"%char) || bool_decide (verb = "v"%char)
               then match argNum with
                    | O => pretty a +:+ doPrintf rest' 1 a
                    | S _ => "%!" +:+ String verb ("(MISSING)" +:+ doPrintf rest' argNum a)
                    end
               else String c (String verb (doPrintf rest' argNum a))
           end
      else String c (doPrintf rest argNum a)
  end.

(** An implementation of [fmt.Sprintf(format, a)] for one int operand,
    used to run examples whose formats are simple. *)
Definition Sprintf1 (format : string) (a : Z) : string := doPrintf format 0 a.


End fmt.


(** ** Part 2. The outside world, the file system, and the naming of files *)

(** A response body, by what [ioutil.ReadAll] returns on it. *)
Record ReadCloser : Type := {
  rc_data : string;
  rc_err : option error;
}.

Record Response : Type := {
  StatusCode : Z;
  Body : ReadCloser;
}.

Record ResultPair : Type := {
  Title : string;
  MediaUrl : string;
}.

Record ResultsStream : Type := { Results : list ResultPair }.
Record OuterJSON : Type := { D : ResultsStream }.

(** Everything the package gets from outside a run: the network, the JSON
    decoder, the failures of the operating system, and [fmt.Sprintf].
    [http.Get] and [client.Do] are taken to return: a response, whatever
    its status code, or an error when the exchange itself failed. *)
Record Env : Type := {
  Sprintf : string -> Z -> string;
  url_QueryEscape : string -> string;
  http_NewRequest : string -> option error;
  client_Do : string -> string -> Response + error;
  json_Unmarshal : string -> OuterJSON * option error;
  http_Get : string -> Response + error;
  os_Create_fails : string -> option error;
  file_Write_fails : string -> string -> option (nat * error);
}.

(** The file system: the paths that exist, with their content. *)
Abbreviation FileSystem := (gmap string string).

(** Code that reads or changes the file system threads it through. *)
Definition IO (A : Type) : Type := FileSystem -> A * FileSystem.

Global Instance IO_ret : MRet IO := fun A a fs => (a, fs).
Global Instance IO_bind : MBind IO :=
  fun A B k m fs => let (a, fs') := m fs in k a fs'.

Module os.

(** [os.Stat], of which the package only keeps the error. *)
Definition Stat (name : string) : IO (option error) :=
  fun fs => (match fs !! name with
             | Some _ => None
             | None => Some (ENOENT "stat" name)
             end, fs).

Definition IsNotExist (err : option error) : bool :=
  match err with
  | Some (ENOENT _ _) => true
  | _ => false
  end.

(** [os.Create]: creates or truncates the named file. *)
Definition Create (E : Env) (name : string) : IO (option error) :=
  fun fs => match os_Create_fails E name with
            | Some err => (Some err, fs)
            | None => (None, <[name := ""]> fs)
            end.

(** [File.Write] on a file just created: on failure only the first
    [n] bytes reached the file. *)
Definition Write (E : Env) (name : string) (b : string) : IO (option error) :=
  fun fs => match file_Write_fails E name b with
            | Some (n, err) => (Some err, <[name := substring 0 n b]> fs)
            | None => (None, <[name := b]> fs)
            end.

(** [os.Remove] of a file. *)
Definition Remove (name : string) : IO (option error) :=
  fun fs => match fs !! name with
            | Some _ => (None, delete name fs)
            | None => (Some (ENOENT "remove" name), fs)
            end.

End os.

Module ioutil.
Definition ReadAll (rc : ReadCloser) : string * option error :=
  (rc_data rc, rc_err rc).
End ioutil.

Definition maxIndices : Z := 100.

(** The loop of [validFilenameMaker]: [todo] iterations are left and the
    next index is [i]; [None] when the loop ends without a return. *)
Fixpoint validFilenameMaker_loop (E : Env) (dir noSuffix ext : string)
    (todo : nat) (i : Z) : IO (option string) :=
  match todo with
  | O => mret None
  | S todo' =>
      let filename := Sprintf E (noSuffix +:+ "_%d" +:+ ext) i in
      let fullPath := filepath.Join [dir; filename] in
      err ← os.Stat fullPath;
      if os.IsNotExist err then mret (Some fullPath)
      else validFilenameMaker_loop E dir noSuffix ext todo' (i + 1)%Z
  end.

(** [validFilenameMaker] returns a path at which no file exists, or an
    error when it finds none. *)
Definition validFilenameMaker (E : Env) (writePath : string)
    : IO (string * option error) :=
  err ← os.Stat writePath;
  if os.IsNotExist err then mret (writePath, None)
  else
    let ext := filepath.Ext writePath in
    let base := filepath.Base writePath in
    let dir := filepath.Dir writePath in
    let noSuffix := strings.TrimSuffix base ext in
    found ← validFilenameMaker_loop E dir noSuffix ext (Z.to_nat maxIndices) 0%Z;
    match found with
    | Some fullPath => mret (fullPath, None)
    | None =>
        mret ("", Some (errorString
          ("a number (maxIndices) of files have a similar name to " +:+ base)))
    end.

(** [Writer.Write] writes the content of [rc] to the file named
    [dir/imgName], or to a sibling of that name when it is taken. *)
Definition Writer_Write (E : Env) (dir imgName : string) (rc : ReadCloser)
    : IO (option error) :=
  let candidatePath := filepath.Join [dir; imgName] in
  '(validPath, err) ← validFilenameMaker E candidatePath;
  match err with
  | Some _ => mret err
  | None =>
      err ← os.Create E validPath;
      match err with
      | Some _ => mret err
      | None =>
          let '(img, err) := ioutil.ReadAll rc in
          match err with
          | Some _ => mret err
          | None => os.Write E validPath img
          end
      end
  end.

(** ** Part 3. The goroutines *)

Inductive OperationStatus : Type := Success | Failure.

Global Instance OperationStatus_eq_dec : EqDecision OperationStatus.
Proof. solve_decision. Defined.

(** [ErrorMsg] is an [interface{}]: nil, or the value a panic carried. *)
Record OperationReply : Type := {
  ObjType : string;
  Status : OperationStatus;
  ErrorMsg : option error;
}.

Global Instance OperationReply_eq_dec : EqDecision OperationReply.
Proof. solve_decision. Defined.

Record ImgData : Type := {
  name : string;
  content : ReadCloser;
}.

(** The flags [main] parses. *)
Record Config : Type := {
  outputDir : string;
  maxRoutines : Z;
  query : string;
  accKey : string;
}.

(** *** The sequential parts of the Requester and of the Getter *)

(** Go's pair of a value and an error is a sum here: [inl] the value when
    the error is nil, [inr] the error. *)
Definition getPairs (E : Env) (jsonStr : string) : list ResultPair + error :=
  let '(parsed, err) := json_Unmarshal E jsonStr in
  match err with
  | None => inl (Results (D parsed))
  | Some err => inr err
  end.

Definition createNewRequest (E : Env) (requestUri : string) : option error :=
  http_NewRequest E requestUri.

Definition sendQuery (E : Env) (queryStr accountKey : string) : ReadCloser + error :=
  let query := url_QueryEscape E ("'" +:+ queryStr +:+ "'") in
  let qp := String.concat "&" ["$format=json"; "Query=" +:+ query] in
  let rootUri := "https://api.datamarket.azure.com/Bing/Search/Image" in
  let requestUri := rootUri +:+ "?" +:+ qp in
  match createNewRequest E requestUri with
  | Some err => inr err
  | None =>
      match client_Do E requestUri accountKey with
      | inr err => inr err
      | inl resp => inl (Body resp)
      end
  end.

Definition Requester_Request (E : Env) (queryStr accountKey : string)
    : list ResultPair + error :=
  match sendQuery E queryStr accountKey with
  | inr err => inr err
  | inl resultStream =>
      match ioutil.ReadAll resultStream with
      | (_, Some err) => inr err
      | (jsonByte, None) => getPairs E jsonByte
      end
  end.

Definition Getter_Get (E : Env) (url : string) : ReadCloser + error :=
  match http_Get E url with
  | inr err => inr err
  | inl resp => inl (Body resp)
  end.

(** The deferred function of every [Main]: [rec] is what [recover]
    returned. *)
Definition deferred_reply (name : string) (rec : option error) : OperationReply :=
  match rec with
  | Some r => {| ObjType := name; Status := Failure; ErrorMsg := Some r |}
  | None => {| ObjType := name; Status := Success; ErrorMsg := None |}
  end.

Definition send_on_closed : error := errorString "send on closed channel".
Definition close_of_closed : error := errorString "close of closed channel".

(** *** Program counters *)

Inductive RequesterPc : Type :=
| ReqCall                            (* line 97 *)
| ReqRange (rest : list ResultPair)  (* line 101, [rest] still to range over *)
| ReqSend (rest : list ResultPair)   (* line 102 *)
| ReqClose                           (* line 105 *)
| ReqReply (rec : option error)      (* lines 88-95 *)
| ReqDone.

Inductive SpawnerPc : Type :=
| SpaStart      (* lines 189-197 *)
| SpaRecv       (* lines 199 and 212 *)
| SpaSpawn      (* lines 203-208 *)
| SpaProbe      (* lines 209-210 *)
| SpaWgDone     (* line 214 *)
| SpaWait       (* line 216 *)
| SpaCloseBox   (* line 217 *)
| SpaReply      (* lines 180-187 *)
| SpaDone.

Inductive GetterPc : Type :=
| GetCall                        (* line 244 *)
| GetPost (img : ImgData)        (* lines 250-251 *)
| GetReply (rec : option error)  (* lines 234-239 *)
| GetWgDone                      (* line 240 *)
| GetProbe                       (* line 241 *)
| GetExit.

Inductive WriterPc : Type :=
| WriNone                   (* not launched yet *)
| WriRecv                   (* lines 284 and 287 *)
| WriWrite (img : ImgData)  (* line 286 *)
| WriReply                  (* lines 276-281 *)
| WriCloseSup               (* line 282 *)
| WriDone.

Inductive MainPc : Type :=
| MainRecv   (* lines 46 and 53 *)
| MainDone.

Record Getter : Type := {
  url : string;
  gpc : GetterPc;
}.

(** The state of a run. [pair] is the loop variable of line 101: the
    Requester sends its address, so the Spawner's [pair] of lines 199-212
    points at this one cell. The three channels hold no data (they are
    unbuffered), only whether they are closed. [observed] is what [main]
    has received, in order. A panic that no deferred function recovers
    ends the process: [crashed]. *)
Record State : Type := {
  req : RequesterPc;
  spa : SpawnerPc;
  wri : WriterPc;
  mainpc : MainPc;
  getters : list Getter;
  pair : ResultPair;
  wg : Z;
  currentRoutines : Z;
  closed_chanPair : bool;
  closed_getAndWrite : bool;
  closed_opStatus : bool;
  files : FileSystem;
  observed : list OperationReply;
  crashed : bool;
}.

Definition initial (fs : FileSystem) : State := {|
  req := ReqCall; spa := SpaStart; wri := WriNone; mainpc := MainRecv;
  getters := []; pair := {| Title := ""; MediaUrl := "" |};
  wg := 0; currentRoutines := 0;
  closed_chanPair := false; closed_getAndWrite := false; closed_opStatus := false;
  files := fs; observed := []; crashed := false;
|}.

Definition set_req (x : RequesterPc) (s : State) : State :=
  {| req := x; spa := spa s; wri := wri s; mainpc := mainpc s; getters := getters s;
     pair := pair s; wg := wg s; currentRoutines := currentRoutines s;
     closed_chanPair := closed_chanPair s; closed_getAndWrite := closed_getAndWrite s;
     closed_opStatus := closed_opStatus s; files := files s; observed := observed s;
     crashed := crashed s |}.

Definition set_spa (x : SpawnerPc) (s : State) : State :=
  {| req := req s; spa := x; wri := wri s; mainpc := mainpc s; getters := getters s;
     pair := pair s; wg := wg s; currentRoutines := currentRoutines s;
     closed_chanPair := closed_chanPair s; closed_getAndWrite := closed_getAndWrite s;
     closed_opStatus := closed_opStatus s; files := files s; observed := observed s;
     crashed := crashed s |}.

Definition set_wri (x : WriterPc) (s : State) : State :=
  {| req := req s; spa := spa s; wri := x; mainpc := mainpc s; getters := getters s;
     pair := pair s; wg := wg s; currentRoutines := currentRoutines s;
     closed_chanPair := closed_chanPair s; closed_getAndWrite := closed_getAndWrite s;
     closed_opStatus := closed_opStatus s; files := files s; observed := observed s;
     crashed := crashed s |}.

Definition set_mainpc (x : MainPc) (s : State) : State :=
  {| req := req s; spa := spa s; wri := wri s; mainpc := x; getters := getters s;
     pair := pair s; wg := wg s; currentRoutines := currentRoutines s;
     closed_chanPair := closed_chanPair s; closed_getAndWrite := closed_getAndWrite s;
     closed_opStatus := closed_opStatus s; files := files s; observed := observed s;
     crashed := crashed s |}.

Definition set_getters (x : list Getter) (s : State) : State :=
  {| req := req s; spa := spa s; wri := wri s; mainpc := mainpc s; getters := x;
     pair := pair s; wg := wg s; currentRoutines := currentRoutines s;
     closed_chanPair := closed_chanPair s; closed_getAndWrite := closed_getAndWrite s;
     closed_opStatus := closed_opStatus s; files := files s; observed := observed s;
     crashed := crashed s |}.

Definition set_pair (x : ResultPair) (s : State) : State :=
  {| req := req s; spa := spa s; wri := wri s; mainpc := mainpc s; getters := getters s;
     pair := x; wg := wg s; currentRoutines := currentRoutines s;
     closed_chanPair := closed_chanPair s; closed_getAndWrite := closed_getAndWrite s;
     closed_opStatus := closed_opStatus s; files := files s; observed := observed s;
     crashed := crashed s |}.

Definition set_wg (x : Z) (s : State) : State :=
  {| req := req s; spa := spa s; wri := wri s; mainpc := mainpc s; getters := getters s;
     pair := pair s; wg := x; currentRoutines := currentRoutines s;
     closed_chanPair := closed_chanPair s; closed_getAndWrite := closed_getAndWrite s;
     closed_opStatus := closed_opStatus s; files := files s; observed := observed s;
     crashed := crashed s |}.

Definition set_currentRoutines (x : Z) (s : State) : State :=
  {| req := req s; spa := spa s; wri := wri s; mainpc := mainpc s; getters := getters s;
     pair := pair s; wg := wg s; currentRoutines := x;
     closed_chanPair := closed_chanPair s; closed_getAndWrite := closed_getAndWrite s;
     closed_opStatus := closed_opStatus s; files := files s; observed := observed s;
     crashed := crashed s |}.

Definition close_chanPair (s : State) : State :=
  {| req := req s; spa := spa s; wri := wri s; mainpc := mainpc s; getters := getters s;
     pair := pair s; wg := wg s; currentRoutines := currentRoutines s;
     closed_chanPair := true; closed_getAndWrite := closed_getAndWrite s;
     closed_opStatus := closed_opStatus s; files := files s; observed := observed s;
     crashed := crashed s |}.

Definition close_getAndWrite (s : State) : State :=
  {| req := req s; spa := spa s; wri := wri s; mainpc := mainpc s; getters := getters s;
     pair := pair s; wg := wg s; currentRoutines := currentRoutines s;
     closed_chanPair := closed_chanPair s; closed_getAndWrite := true;
     closed_opStatus := closed_opStatus s; files := files s; observed := observed s;
     crashed := crashed s |}.

Definition close_opStatus (s : State) : State :=
  {| req := req s; spa := spa s; wri := wri s; mainpc := mainpc s; getters := getters s;
     pair := pair s; wg := wg s; currentRoutines := currentRoutines s;
     closed_chanPair := closed_chanPair s; closed_getAndWrite := closed_getAndWrite s;
     closed_opStatus := true; files := files s; observed := observed s;
     crashed := crashed s |}.

Definition set_files (x : FileSystem) (s : State) : State :=
  {| req := req s; spa := spa s; wri := wri s; mainpc := mainpc s; getters := getters s;
     pair := pair s; wg := wg s; currentRoutines := currentRoutines s;
     closed_chanPair := closed_chanPair s; closed_getAndWrite := closed_getAndWrite s;
     closed_opStatus := closed_opStatus s; files := x; observed := observed s;
     crashed := crashed s |}.

Definition log (r : OperationReply) (s : State) : State :=
  {| req := req s; spa := spa s; wri := wri s; mainpc := mainpc s; getters := getters s;
     pair := pair s; wg := wg s; currentRoutines := currentRoutines s;
     closed_chanPair := closed_chanPair s; closed_getAndWrite := closed_getAndWrite s;
     closed_opStatus := closed_opStatus s; files := files s; observed := observed s ++ [r];
     crashed := crashed s |}.

Definition crash (s : State) : State :=
  {| req := req s; spa := spa s; wri := wri s; mainpc := mainpc s; getters := getters s;
     pair := pair s; wg := wg s; currentRoutines := currentRoutines s;
     closed_chanPair := closed_chanPair s; closed_getAndWrite := closed_getAndWrite s;
     closed_opStatus := closed_opStatus s; files := files s; observed := observed s;
     crashed := true |}.

Definition set_gpc (i : nat) (x : GetterPc) (s : State) : State :=
  set_getters (alter (fun g => {| url := url g; gpc := x |}) i (getters s)) s.

(** *** Steps *)

(** [supervisor <- reply] in a deferred function, then [k]: the rendezvous
    with the receive of [main], which logs the reply. On a closed channel
    the send panics, and a panic raised in a deferred function is not
    recovered. *)
Definition send_reply (r : OperationReply) (k : State -> State) (s : State)
    : option State :=
  if closed_opStatus s then Some (crash s)
  else match mainpc s with
       | MainRecv => Some (k (log r s))
       | MainDone => None
       end.

Definition step_requester (E : Env) (cfg : Config) (s : State) : option State :=
  match req s with
  | ReqCall =>
      match Requester_Request E (query cfg) (accKey cfg) with
      | inr err => Some (set_req (ReqReply (Some err)) s)
      | inl results => Some (set_req (ReqRange results) s)
      end
  | ReqRange [] => Some (set_req ReqClose s)
  | ReqRange (p :: rest) => Some (set_req (ReqSend rest) (set_pair p s))
  | ReqSend rest =>
      if closed_chanPair s then Some (set_req (ReqReply (Some send_on_closed)) s)
      else match spa s with
           | SpaRecv => Some (set_spa SpaSpawn (set_req (ReqRange rest) s))
           | _ => None
           end
  | ReqClose =>
      if closed_chanPair s then Some (set_req (ReqReply (Some close_of_closed)) s)
      else Some (set_req (ReqReply None) (close_chanPair s))
  | ReqReply rec => send_reply (deferred_reply "Requester" rec) (set_req ReqDone) s
  | ReqDone => None
  end.

Definition step_spawner (cfg : Config) (s : State) : option State :=
  match spa s with
  | SpaStart => Some (set_spa SpaRecv (set_wri WriRecv (set_wg (wg s + 1) s)))
  | SpaRecv => if closed_chanPair s then Some (set_spa SpaWgDone s) else None
  | SpaSpawn =>
      let getter := {| url := MediaUrl (pair s); gpc := GetCall |} in
      let n := (currentRoutines s + 1)%Z in
      Some (set_spa (if (maxRoutines cfg <=? n)%Z then SpaProbe else SpaRecv)
              (set_currentRoutines n
                 (set_wg (wg s + 1) (set_getters (getters s ++ [getter]) s))))
  | SpaProbe => None
  | SpaWgDone => Some (set_spa SpaWait (set_wg (wg s - 1) s))
  | SpaWait => if (wg s =? 0)%Z then Some (set_spa SpaCloseBox s) else None
  | SpaCloseBox => Some (set_spa SpaReply (close_getAndWrite s))
  | SpaReply => send_reply (deferred_reply "Spawner" None) (set_spa SpaDone) s
  | SpaDone => None
  end.

Definition step_getter (E : Env) (i : nat) (s : State) : option State :=
  match getters s !! i with
  | None => None
  | Some g =>
      match gpc g with
      | GetCall =>
          match Getter_Get E (url g) with
          | inr err => Some (set_gpc i (GetReply (Some err)) s)
          | inl content =>
              let fileName := filepath.Base (url g) in
              Some (set_gpc i (GetPost {| name := fileName; content := content |}) s)
          end
      | GetPost img =>
          if closed_getAndWrite s
          then Some (set_gpc i (GetReply (Some send_on_closed)) s)
          else match wri s with
               | WriRecv => Some (set_wri (WriWrite img) (set_gpc i (GetReply None) s))
               | _ => None
               end
      | GetReply rec => send_reply (deferred_reply "Getter" rec) (set_gpc i GetWgDone) s
      | GetWgDone => Some (set_gpc i GetProbe (set_wg (wg s - 1) s))
      | GetProbe =>
          match spa s with
          | SpaProbe =>
              Some (set_spa SpaRecv
                      (set_currentRoutines (currentRoutines s - 1) (set_gpc i GetExit s)))
          | _ => None
          end
      | GetExit => None
      end
  end.

Definition step_writer (E : Env) (cfg : Config) (s : State) : option State :=
  match wri s with
  | WriNone => None
  | WriRecv => if closed_getAndWrite s then Some (set_wri WriReply s) else None
  | WriWrite img =>
      let '(_, fs) := Writer_Write E (outputDir cfg) (name img) (content img) (files s) in
      Some (set_wri WriRecv (set_files fs s))
  | WriReply => send_reply (deferred_reply "Writer" None) (set_wri WriCloseSup) s
  | WriCloseSup => Some (set_wri WriDone (close_opStatus s))
  | WriDone => None
  end.

Definition step_main (s : State) : option State :=
  match mainpc s with
  | MainRecv => if closed_opStatus s then Some (set_mainpc MainDone s) else None
  | MainDone => None
  end.

(** The scheduler's choice. A rendezvous is the step of its sender; a
    receive on a closed channel is the step of its receiver. *)
Inductive Action : Type :=
| ActRequester
| ActSpawner
| ActGetter (i : nat)
| ActWriter
| ActMain.

(** The process is over once [main] returns or a panic escapes. *)
Definition halted (s : State) : bool :=
  crashed s || match mainpc s with MainDone => true | MainRecv => false end.

Definition step (E : Env) (cfg : Config) (a : Action) (s : State) : option State :=
  if halted s then None
  else match a with
       | ActRequester => step_requester E cfg s
       | ActSpawner => step_spawner cfg s
       | ActGetter i => step_getter E i s
       | ActWriter => step_writer E cfg s
       | ActMain => step_main s
       end.

Fixpoint run (E : Env) (cfg : Config) (sched : list Action) (s : State)
    : option State :=
  match sched with
  | [] => Some s
  | a :: sched' =>
      match step E cfg a s with
      | Some s' => run E cfg sched' s'
      | None => None
      end
  end.

Definition reachable (E : Env) (cfg : Config) (fs : FileSystem) (s : State) : Prop :=
  exists sched, run E cfg sched (initial fs) = Some s.

(** No step is possible: the run is over, or every goroutine is blocked. *)
Definition stuck (E : Env) (cfg : Config) (s : State) : Prop :=
  forall a, step E cfg a s = None.

(** ** Part 4. Properties *)

(** *** The naming of files *)

(** The file name of [P] without its extension. *)
Definition stem (P : string) : string :=
  strings.TrimSuffix (filepath.Base P) (filepath.Ext P).

(** The name the comment of [Writer.Write] promises for the [k]-th
    sibling of [P]: the number at the end of the file name, before the
    file extension. *)
Definition sibling (P : string) (k : Z) : string :=
  filepath.Join [filepath.Dir P; stem P +:+ "_" +:+ pretty k +:+ filepath.Ext P].

(** The [i]-th name [validFilenameMaker] tries for [P]. *)
Definition candidate (E : Env) (P : string) (i : Z) : string :=
  filepath.Join [filepath.Dir P; Sprintf E (stem P +:+ "_%d" +:+ filepath.Ext P) i].








(** [validFilenameMaker] only looks at the file system. *)
Lemma validFilenameMaker_loop_files E dir noSuffix ext todo i fs :
  (validFilenameMaker_loop E dir noSuffix ext todo i fs).2 = fs.
Proof.
  revert i. induction todo as [|todo IH]; intros i; simpl; [done|].
  unfold mbind, IO_bind, os.Stat.
  destruct (os.IsNotExist _); [done|]. apply IH.
Qed.

Lemma validFilenameMaker_files E writePath fs :
  (validFilenameMaker E writePath fs).2 = fs.
Proof.
  unfold validFilenameMaker, mbind, IO_bind, os.Stat.
  destruct (os.IsNotExist _); [done|].
  pose proof (validFilenameMaker_loop_files E (filepath.Dir writePath)
    (strings.TrimSuffix (filepath.Base writePath) (filepath.Ext writePath))
    (filepath.Ext writePath) (Z.to_nat maxIndices) 0 fs) as H.
  destruct (validFilenameMaker_loop _ _ _ _ _ _ _) as [[p|] fs']; simpl in *; by subst.
Qed.

Lemma validFilenameMaker_loop_S E P todo i fs :
  validFilenameMaker_loop E (filepath.Dir P) (stem P) (filepath.Ext P) (S todo) i fs
  = match fs !! candidate E P i with
    | Some _ =>
        validFilenameMaker_loop E (filepath.Dir P) (stem P) (filepath.Ext P)
          todo (i + 1) fs
    | None => (Some (candidate E P i), fs)
    end.
Proof.
  cbn [validFilenameMaker_loop]. unfold mbind, IO_bind, os.Stat, candidate.
  destruct (fs !! _); reflexivity.
Qed.


Lemma validFilenameMaker_loop_exhausted E P todo i fs :
  (forall j, (j < todo)%nat -> is_Some (fs !! candidate E P (i + Z.of_nat j))) ->
  validFilenameMaker_loop E (filepath.Dir P) (stem P) (filepath.Ext P) todo i fs
  = (None, fs).
Proof.
  revert i. induction todo as [|todo IH]; intros i Hall; [done|].
  rewrite validFilenameMaker_loop_S.
  destruct (Hall O ltac:(lia)) as [x Hx].
  replace (i + Z.of_nat 0)%Z with i in Hx by lia. rewrite Hx.
  apply IH. intros j Hj.
  replace (i + 1 + Z.of_nat j)%Z with (i + Z.of_nat (S j))%Z by lia.
  apply Hall. lia.
Qed.

Lemma validFilenameMaker_unfold E P fs :
  validFilenameMaker E P fs
  = match fs !! P with
    | None => ((P, None), fs)
    | Some _ =>
        match validFilenameMaker_loop E (filepath.Dir P) (stem P) (filepath.Ext P)
                (Z.to_nat maxIndices) 0 fs with
        | (Some fullPath, fs') => ((fullPath, None), fs')
        | (None, fs') =>
            (("", Some (errorString
               ("a number (maxIndices) of files have a similar name to "
                +:+ filepath.Base P))), fs')
        end
    end.
Proof.
  unfold validFilenameMaker, mbind, IO_bind, os.Stat, stem.
  destruct (fs !! P); [|reflexivity]. cbn [os.IsNotExist].
  destruct (validFilenameMaker_loop _ _ _ _ _ _ _) as [[p|] fs']; reflexivity.
Qed.



(** X2. When [P] and all hundred candidates are taken, the result is an
    error and the empty path. *)
Lemma validFilenameMaker_exhausted E P fs :
  is_Some (fs !! P) ->
  (forall j, (0 <= j < maxIndices)%Z -> is_Some (fs !! candidate E P j)) ->
  validFilenameMaker E P fs
  = (("", Some (errorString ("a number (maxIndices) of files have a similar name to "
                             +:+ filepath.Base P))), fs).
Proof.
  intros [x Hx] Hall.
  rewrite validFilenameMaker_unfold, Hx.
  rewrite (validFilenameMaker_loop_exhausted E P _ 0 fs); [done|].
  intros j Hj. apply Hall. unfold maxIndices in *. lia.
Qed.

(** C9. [validFilenameMaker] changes nothing in the file system and creates
    no file, and a second call on the same path, with the file system as
    the first call left it, returns what the first call returned. *)
Theorem validFilenameMaker_idempotent E writePath fs :
  let '(r1, fs1) := validFilenameMaker E writePath fs in
  let '(r2, fs2) := validFilenameMaker E writePath fs1 in
  fs1 = fs /\ fs2 = fs /\ r2 = r1.
Proof.
  pose proof (validFilenameMaker_files E writePath fs) as H1.
  destruct (validFilenameMaker E writePath fs) as [r1 fs1] eqn:Hcall1.
  simpl in H1. subst fs1. rewrite Hcall1. done.
Qed.

(** An outside world for the examples: the search answers [search], which
    decodes to [results]; [get] answers the Getters; [create] says which
    files cannot be created; [fmt.Sprintf] is the model of Part 1. *)
Definition world (search : Response + error) (results : list ResultPair)
    (get : string -> Response + error) (create : string -> option error) : Env := {|
  Sprintf := fmt.Sprintf1;
  url_QueryEscape := fun q => q;
  http_NewRequest := fun _ => None;
  client_Do := fun _ _ => search;
  json_Unmarshal := fun _ => ({| D := {| Results := results |} |}, None);
  http_Get := get;
  os_Create_fails := create;
  file_Write_fails := fun _ _ => None;
|}.

Definition ok200 (data : string) : Response + error :=
  inl {| StatusCode := 200; Body := {| rc_data := data; rc_err := None |} |}.

(** A world in which nothing fails. *)
Definition quiet (results : list ResultPair) (get : string -> Response + error) : Env :=
  world (ok200 "{}") results get (fun _ => None).

(** C8. A file name is used as the format of [fmt.Sprintf]: with
    [/tmp/a%%b.png] taken and nothing else, [validFilenameMaker] returns
    [/tmp/a%b_0.png], which is not the sibling [/tmp/a%%b_0.png]. *)
Theorem validFilenameMaker_percent :
  (validFilenameMaker (quiet [] ok200) "/tmp/a%%b.png" {[ "/tmp/a%%b.png" := "x" ]}).1
  = ("/tmp/a%b_0.png", None)
  /\ sibling "/tmp/a%%b.png" 0 = "/tmp/a%%b_0.png".
Proof. split; vm_compute; reflexivity. Qed.

(** *** Counting over the Getters and over the replies *)

Definition b2z (b : bool) : Z := if b then 1%Z else 0%Z.

Fixpoint sumz {A : Type} (w : A -> Z) (l : list A) : Z :=
  match l with
  | [] => 0
  | x :: l' => w x + sumz w l'
  end.

Definition countb {A : Type} (f : A -> bool) (l : list A) : Z :=
  sumz (fun x => b2z (f x)) l.

Lemma sumz_app {A} (w : A -> Z) l1 l2 :
  sumz w (l1 ++ l2) = (sumz w l1 + sumz w l2)%Z.
Proof. induction l1 as [|x l1 IH]; simpl; lia. Qed.

Lemma sumz_alter {A} (w : A -> Z) (h : A -> A) l i x :
  l !! i = Some x ->
  sumz w (alter h i l) = (sumz w l - w x + w (h x))%Z.
Proof.
  revert i. induction l as [|y l IH]; intros [|i] Hi; simplify_eq/=; [lia|].
  rewrite (IH i) by done. lia.
Qed.

Lemma sumz_nonneg {A} (w : A -> Z) l :
  (forall x, 0 <= w x)%Z -> (0 <= sumz w l)%Z.
Proof. intros Hw. induction l as [|x l IH]; simpl; [lia|]. specialize (Hw x). lia. Qed.

Lemma countb_nonneg {A} (f : A -> bool) l : (0 <= countb f l)%Z.
Proof. apply sumz_nonneg. intros x. unfold b2z. destruct (f x); lia. Qed.

Lemma countb_le_length {A} (f : A -> bool) l : (countb f l <= Z.of_nat (length l))%Z.
Proof.
  induction l as [|x l IH]; simpl; [done|].
  unfold countb in *. simpl. unfold b2z at 1. destruct (f x); lia.
Qed.

Lemma countb_pos_lookup {A} (f : A -> bool) l :
  (0 < countb f l)%Z -> exists i x, l !! i = Some x /\ f x = true.
Proof.
  induction l as [|y l IH]; unfold countb; simpl; [lia|].
  destruct (f y) eqn:Hy.
  - intros _. by exists O, y.
  - unfold b2z at 1. intros H. destruct IH as (i & x & Hi & Hx); [unfold countb; lia|].
    by exists (S i), x.
Qed.

Lemma countb_zero_all {A} (f g : A -> bool) l :
  (forall x, f x = false -> g x = true) ->
  countb f l = 0%Z -> countb g l = Z.of_nat (length l).
Proof.
  intros Hfg. induction l as [|y l IH]; unfold countb; simpl; [done|].
  pose proof (countb_nonneg f l) as Hl. unfold countb in *.
  destruct (f y) eqn:Hy; unfold b2z at 1; [lia|].
  intros H. rewrite (Hfg y Hy). unfold b2z at 1. rewrite IH by lia. lia.
Qed.

Definition live (pc : GetterPc) : bool :=
  match pc with GetExit => false | _ => true end.

(** The Getter has not called [wg.Done] yet. *)
Definition undone (pc : GetterPc) : bool :=
  match pc with GetCall | GetPost _ | GetReply _ | GetWgDone => true | _ => false end.

(** The Getter has sent its reply. *)
Definition replied (pc : GetterPc) : bool :=
  match pc with GetWgDone | GetProbe | GetExit => true | _ => false end.

Definition live_getters (s : State) : Z := countb (fun g => live (gpc g)) (getters s).

Definition from (objType : string) (r : OperationReply) : bool :=
  bool_decide (ObjType r = objType).

(** The number of replies of Getters that [main] has received. *)
Definition getter_records (s : State) : Z := countb (from "Getter") (observed s).

(** *** Every run ends *)

Definition getter_weight (pc : GetterPc) : Z :=
  match pc with
  | GetCall => 6 | GetPost _ => 5 | GetReply _ => 3
  | GetWgDone => 2 | GetProbe => 1 | GetExit => 0
  end.

Definition requester_weight (E : Env) (cfg : Config) (pc : RequesterPc) : Z :=
  match pc with
  | ReqCall =>
      match Requester_Request E (query cfg) (accKey cfg) with
      | inl results => 4 + 9 * Z.of_nat (length results)
      | inr _ => 2
      end
  | ReqRange rest => 3 + 9 * Z.of_nat (length rest)
  | ReqSend rest => 11 + 9 * Z.of_nat (length rest)
  | ReqClose => 2
  | ReqReply _ => 1
  | ReqDone => 0
  end.

Definition spawner_weight (pc : SpawnerPc) : Z :=
  match pc with
  | SpaStart => 9 | SpaRecv => 5 | SpaSpawn => 12 | SpaProbe => 5
  | SpaWgDone => 4 | SpaWait => 3 | SpaCloseBox => 2 | SpaReply => 1 | SpaDone => 0
  end.

Definition writer_weight (pc : WriterPc) : Z :=
  match pc with
  | WriNone => 3 | WriRecv => 3 | WriWrite _ => 4
  | WriReply => 2 | WriCloseSup => 1 | WriDone => 0
  end.

(** An upper bound on the number of steps left. *)
Definition steps_left (E : Env) (cfg : Config) (s : State) : Z :=
  requester_weight E cfg (req s) + spawner_weight (spa s) + writer_weight (wri s)
  + match mainpc s with MainRecv => 1 | MainDone => 0 end
  + sumz (fun g => getter_weight (gpc g)) (getters s)
  + (if crashed s then 0 else 1).

Lemma steps_left_nonneg E cfg s : (0 <= steps_left E cfg s)%Z.
Proof.
  unfold steps_left.
  pose proof (sumz_nonneg (fun g => getter_weight (gpc g)) (getters s)) as Hg.
  assert (0 <= sumz (fun g => getter_weight (gpc g)) (getters s))%Z as Hg'.
  { apply Hg. intros g. destruct (gpc g); simpl; lia. }
  destruct (req s), (spa s), (wri s), (mainpc s), (crashed s); simpl;
    repeat case_match; lia.
Qed.

Lemma step_decreases E cfg a s s' :
  step E cfg a s = Some s' -> (steps_left E cfg s' < steps_left E cfg s)%Z.
Proof.
  unfold step, halted. intros Hstep.
  destruct s as [rq sp wr mn gs pr w c cp cg co fs obs cr]; simpl in *.
  destruct cr; [done|]. destruct mn; [|done]. simpl in Hstep.
  destruct a as [| |i| |].
  - unfold step_requester, send_reply in Hstep; simpl in Hstep.
    repeat case_match; simplify_eq/=; unfold steps_left; simpl;
      repeat case_match; simplify_eq/=; lia.
  - unfold step_spawner, send_reply in Hstep; simpl in Hstep.
    repeat case_match; simplify_eq/=; unfold steps_left; simpl;
      rewrite ?sumz_app; simpl; repeat case_match; simpl; try lia.
    destruct wr; simpl; lia.
  - unfold step_getter, send_reply, set_gpc in Hstep; simpl in Hstep.
    destruct (gs !! i) as [g|] eqn:Hg; [|done].
    repeat case_match; simplify_eq/=; unfold steps_left; simpl;
      rewrite ?(sumz_alter _ _ _ _ _ Hg); simpl;
      match goal with H : gpc g = _ |- _ => rewrite ?H end; simpl; lia.
  - unfold step_writer, send_reply in Hstep; simpl in Hstep.
    repeat case_match; simplify_eq/=; unfold steps_left; simpl; lia.
  - unfold step_main in Hstep; simpl in Hstep.
    repeat case_match; simplify_eq/=; unfold steps_left; simpl; lia.
Qed.

Lemma run_steps_left E cfg sched s s' :
  run E cfg sched s = Some s' ->
  (Z.of_nat (length sched) + steps_left E cfg s' <= steps_left E cfg s)%Z.
Proof.
  revert s. induction sched as [|a sched IH]; intros s Hrun; simplify_eq/=; [lia|].
  destruct (step E cfg a s) as [s1|] eqn:Hstep; [|done].
  apply step_decreases in Hstep. apply IH in Hrun. lia.
Qed.

(** *** The invariant of the pipeline *)

Lemma countb_app {A} (f : A -> bool) l1 l2 :
  countb f (l1 ++ l2) = (countb f l1 + countb f l2)%Z.
Proof. apply sumz_app. Qed.

Lemma countb_alter {A} (f : A -> bool) (h : A -> A) l i x :
  l !! i = Some x ->
  countb f (alter h i l) = (countb f l - b2z (f x) + b2z (f (h x)))%Z.
Proof. apply (sumz_alter (fun x => b2z (f x))). Qed.

Lemma from_deferred_reply a b rec :
  from a (deferred_reply b rec) = bool_decide (b = a).
Proof. by destruct rec. Qed.

(** The Spawner's own count in the WaitGroup, from line 192 to line 214. *)
Definition guard (pc : SpawnerPc) : Z :=
  match pc with SpaRecv | SpaSpawn | SpaProbe | SpaWgDone => 1 | _ => 0 end.

Definition window (cfg : Config) : Z := Z.max (maxRoutines cfg) 1.

Record Inv (cfg : Config) (s : State) : Prop := {
  inv_live : currentRoutines s = live_getters s;
  inv_window :
    match spa s with
    | SpaProbe => (1 <= currentRoutines s <= window cfg)%Z
    | _ => (currentRoutines s + 1 <= window cfg)%Z
    end;
  inv_wg : wg s = (guard (spa s) + countb (fun g => undone (gpc g)) (getters s))%Z;
  inv_records : getter_records s = countb (fun g => replied (gpc g)) (getters s);
  inv_start :
    match spa s with
    | SpaStart => getters s = [] /\ wri s = WriNone
    | _ => wri s <> WriNone
    end;
  inv_box :
    closed_getAndWrite s = match spa s with SpaReply | SpaDone => true | _ => false end;
  inv_waited :
    match spa s with SpaCloseBox | SpaReply | SpaDone => wg s = 0%Z | _ => True end;
  inv_writer :
    match wri s with
    | WriReply | WriCloseSup | WriDone => closed_getAndWrite s = true
    | _ => True
    end;
  inv_sup :
    closed_opStatus s = match wri s with WriDone => true | _ => false end;
  inv_crashed : crashed s = true -> closed_opStatus s = true;
  inv_returned : mainpc s = MainDone -> closed_opStatus s = true;
  inv_loop :
    match spa s with
    | SpaWgDone | SpaWait | SpaCloseBox | SpaReply | SpaDone => closed_chanPair s = true
    | _ => True
    end;
}.

Lemma Inv_initial cfg fs : Inv cfg (initial fs).
Proof. split; simpl; unfold window; try done; try lia. Qed.


Lemma countb_singleton {A} (f : A -> bool) x : countb f [x] = b2z (f x).
Proof. unfold countb. simpl. lia. Qed.

Ltac eval_bool_decide :=
  repeat match goal with
    | |- context [bool_decide (?a = ?b)] =>
        let v := eval vm_compute in (bool_decide (a = b)) in
        change (bool_decide (a = b)) with v
    end.

Ltac inv_split :=
  split; simpl in *; unfold live_getters, getter_records, window in *; simpl in *;
  rewrite ?countb_app, ?countb_singleton, ?from_deferred_reply; simpl;
  eval_bool_decide; simpl.


Lemma countb_lookup {A} (f : A -> bool) l i x :
  l !! i = Some x -> (b2z (f x) <= countb f l)%Z.
Proof.
  revert i. induction l as [|y l IH]; intros [|i] Hi; simplify_eq/=.
  - pose proof (countb_nonneg f l). unfold countb in *. simpl. lia.
  - apply IH in Hi. unfold countb in *. simpl. unfold b2z at 2. destruct (f y); lia.
Qed.

Ltac by_pcs :=
  try done; try lia;
  try (match goal with sp : SpawnerPc |- _ => destruct sp end;
       simpl in *; destruct_and?; simplify_eq/=;
       try done; try lia; try (intuition (try done; try lia; try congruence)));
  try (match goal with wr : WriterPc |- _ => destruct wr end;
       simpl in *; try done; try lia; try (intuition (try done; try lia; try congruence))).

Lemma step_Inv E cfg a s s' : Inv cfg s -> step E cfg a s = Some s' -> Inv cfg s'.
Proof.
  unfold step, halted. intros Hinv Hstep.
  pose proof (countb_nonneg (fun g => live (gpc g)) (getters s)) as Hlive.
  pose proof (countb_nonneg (fun g => undone (gpc g)) (getters s)) as Hundone.
  destruct s as [rq sp wr mn gs pr w c cp cg co fs obs cr]; simpl in *.
  destruct cr; [done|]. destruct mn; [|done]. simpl in Hstep.
  destruct a as [| |i| |].
  - unfold step_requester, send_reply in Hstep; simpl in Hstep.
    repeat case_match; simplify_eq/=; destruct Hinv; inv_split; by_pcs.
  - unfold step_spawner, send_reply in Hstep; simpl in Hstep.
    repeat case_match; simplify_eq/=; destruct Hinv; inv_split; by_pcs.
  - unfold step_getter, send_reply, set_gpc in Hstep; simpl in Hstep.
    destruct (gs !! i) as [g|] eqn:Hg; [|done].
    pose proof (countb_lookup (fun g => undone (gpc g)) _ _ _ Hg) as Hgu.
    pose proof (countb_lookup (fun g => live (gpc g)) _ _ _ Hg) as Hgl.
    repeat case_match; simplify_eq/=; destruct Hinv; inv_split;
      rewrite ?(countb_alter _ _ _ _ _ Hg), ?length_alter; simpl;
      repeat match goal with H : gpc g = _ |- _ => rewrite ?H in * end; simpl in *;
      by_pcs.
  - unfold step_writer, send_reply in Hstep; simpl in Hstep.
    repeat case_match; simplify_eq/=; destruct Hinv; inv_split; by_pcs.
  - unfold step_main in Hstep; simpl in Hstep.
    repeat case_match; simplify_eq/=; destruct Hinv; inv_split; by_pcs.
Qed.

(** The Getters launched so far, the one of line 203 to come included. *)
Definition launched (s : State) : Z :=
  (Z.of_nat (length (getters s)) + match spa s with SpaSpawn => 1 | _ => 0 end)%Z.

(** Where the Requester stands when [Request] returned [results]. *)
Definition InvReq (results : list ResultPair) (s : State) : Prop :=
  let N := Z.of_nat (length results) in
  match req s with
  | ReqCall => launched s = 0%Z /\ closed_chanPair s = false
  | ReqRange rest =>
      launched s = (N - Z.of_nat (length rest))%Z /\ closed_chanPair s = false
  | ReqSend rest =>
      launched s = (N - Z.of_nat (length rest) - 1)%Z /\ closed_chanPair s = false
  | ReqClose => launched s = N /\ closed_chanPair s = false
  | ReqReply None | ReqDone => launched s = N /\ closed_chanPair s = true
  | ReqReply (Some _) => False
  end.



Ltac req_cases :=
  unfold InvReq, launched in *; simpl in *;
  rewrite ?length_app, ?length_alter; simpl;
  try match goal with rq : RequesterPc |- _ => destruct rq as [| | | |[]|] end;
  simpl in *; repeat case_match; destruct_and?; simplify_eq/=;
  try done; try (split; [lia|done]).

Lemma step_InvReq E cfg results a s s' :
  Requester_Request E (query cfg) (accKey cfg) = inl results ->
  InvReq results s -> step E cfg a s = Some s' -> InvReq results s'.
Proof.
  unfold step, halted. intros Hreq Hinv Hstep.
  destruct s as [rq sp wr mn gs pr w c cp cg co fs obs cr]; simpl in *.
  destruct cr; [done|]. destruct mn; [|done]. simpl in Hstep.
  destruct a as [| |i| |].
  - unfold step_requester, send_reply in Hstep; simpl in Hstep.
    repeat case_match; simplify_eq/=; req_cases.
  - unfold step_spawner, send_reply in Hstep; simpl in Hstep.
    repeat case_match; simplify_eq/=; req_cases.
  - unfold step_getter, send_reply, set_gpc in Hstep; simpl in Hstep.
    repeat case_match; simplify_eq/=; req_cases.
  - unfold step_writer, send_reply in Hstep; simpl in Hstep.
    repeat case_match; simplify_eq/=; req_cases.
  - unfold step_main in Hstep; simpl in Hstep.
    repeat case_match; simplify_eq/=; req_cases.
Qed.


Lemma run_invariant E cfg (P : State -> Prop) sched s s' :
  (forall a s s', P s -> step E cfg a s = Some s' -> P s') ->
  P s -> run E cfg sched s = Some s' -> P s'.
Proof.
  intros Hstep. revert s. induction sched as [|a sched IH]; intros s Hs Hrun; simplify_eq/=; [done|].
  destruct (step E cfg a s) as [s1|] eqn:Hs1; [|done]. eauto.
Qed.

Lemma run_Inv E cfg fs sched s :
  run E cfg sched (initial fs) = Some s -> Inv cfg s.
Proof.
  apply (run_invariant E cfg (Inv cfg)); [apply step_Inv|apply Inv_initial].
Qed.

Lemma run_InvReq E cfg fs results sched s :
  Requester_Request E (query cfg) (accKey cfg) = inl results ->
  run E cfg sched (initial fs) = Some s -> InvReq results s.
Proof.
  intros Hreq. apply (run_invariant E cfg (InvReq results)); [|done].
  intros ???. by apply step_InvReq.
Qed.

(** When the process is over, every descriptor has had its Getter, and
    every Getter has sent its reply. *)
Lemma halted_getter_records cfg results s :
  Inv cfg s -> InvReq results s -> halted s = true ->
  getter_records s = Z.of_nat (length results)
  /\ Z.of_nat (length (getters s)) = Z.of_nat (length results).
Proof.
  intros [Hlive Hwin Hwg Hrec Hstart Hbox Hwaited Hwriter Hsup Hcrashed Hret Hloop] Hreq Hhalt.
  assert (closed_opStatus s = true) as Hco.
  { unfold halted in Hhalt. apply orb_prop in Hhalt as [?|Hm]; [auto|].
    destruct (mainpc s) eqn:?; [done|auto]. }
  rewrite Hco in Hsup. destruct (wri s) eqn:Hwri; try done.
  rewrite Hwriter in Hbox.
  assert (wg s = 0%Z /\ closed_chanPair s = true /\ guard (spa s) = 0%Z
          /\ launched s = Z.of_nat (length (getters s))) as (Hwg0 & Hcp & Hguard & Hl).
  { revert Hbox Hwaited Hloop. unfold launched.
    destruct (spa s); simpl; intros; try done; repeat split; try done; lia. }
  rewrite Hwg0, Hguard in Hwg.
  rewrite Hrec.
  rewrite (countb_zero_all (fun g => undone (gpc g)) (fun g => replied (gpc g)));
    [|by intros g; destruct (gpc g)|lia].
  unfold InvReq in Hreq. rewrite Hcp, Hl in Hreq.
  destruct (req s) as [| | | |[]|]; destruct_and?; simplify_eq/=; try done; lia.
Qed.

(** A Getter that has not called [wg.Done] yet can take its step, or the
    Writer can. *)
Lemma undone_getter_progress E cfg s i g :
  Inv cfg s -> halted s = false ->
  getters s !! i = Some g -> undone (gpc g) = true ->
  is_Some (step E cfg (ActGetter i) s) \/ is_Some (step E cfg ActWriter s).
Proof.
  intros [Hlive Hwin Hwg Hrec Hstart Hbox Hwaited Hwriter Hsup Hcrashed Hret Hloop] Hhalt Hg Hu. unfold step. rewrite Hhalt.
  unfold halted in Hhalt. apply orb_false_elim in Hhalt as [Hcr Hm].
  destruct (mainpc s) eqn:Hmain; [|done].
  unfold step_getter, step_writer, send_reply. rewrite Hg, Hmain.
  destruct (gpc g) eqn:Hpc; try done.
  - left. by destruct (Getter_Get _ _).
  - destruct (closed_getAndWrite s) eqn:Hcg; [by left|].
    revert Hstart Hwriter. destruct (wri s) eqn:Hwri; intros Hstart Hwriter;
      try done; try by left.
    + destruct (spa s); destruct_and?; simplify_eq/=.
      match goal with H : getters s = [] |- _ => by rewrite H in Hg end.
    + right. by destruct (Writer_Write _ _ _ _ _).
  - left. by destruct (closed_opStatus s).
  - by left.
Qed.

(** No deadlock when the search succeeds: as long as the process is not
    over, some goroutine can take a step. *)
Lemma progress E cfg results s :
  Requester_Request E (query cfg) (accKey cfg) = inl results ->
  Inv cfg s -> InvReq results s -> halted s = false ->
  exists a, is_Some (step E cfg a s).
Proof.
  intros Hrequest Hinv Hreq Hhalt.
  pose proof Hinv as [Hlive Hwin Hwg Hrec Hstart Hbox Hwaited Hwriter Hsup Hcrashed Hret Hloop].
  pose proof Hhalt as Hhalt'.
  unfold halted in Hhalt'. apply orb_false_elim in Hhalt' as [Hcr Hm].
  destruct (mainpc s) eqn:Hmain; [|done].
  destruct (spa s) eqn:Hspa.
  - exists ActSpawner. unfold step, step_spawner. by rewrite Hhalt, Hspa.
  - destruct (closed_chanPair s) eqn:Hcp.
    + exists ActSpawner. unfold step, step_spawner. by rewrite Hhalt, Hspa, Hcp.
    + exists ActRequester. unfold step, step_requester, send_reply.
      rewrite Hhalt, Hcp, Hspa, Hmain. unfold InvReq in Hreq. rewrite Hcp in Hreq.
      destruct (req s) as [| [|] | | |[]|]; destruct_and?; simplify_eq/=; try done.
      rewrite Hrequest. done.
  - exists ActSpawner. unfold step, step_spawner. by rewrite Hhalt, Hspa.
  - destruct (countb_pos_lookup (fun g => live (gpc g)) (getters s)) as (i & g & Hg & Hgl).
    { unfold live_getters in *. lia. }
    destruct (undone (gpc g)) eqn:Hu.
    + destruct (undone_getter_progress E cfg s i g Hinv Hhalt Hg Hu); eauto.
    + exists (ActGetter i). unfold step, step_getter. rewrite Hhalt, Hg, Hspa.
      by destruct (gpc g).
  - exists ActSpawner. unfold step, step_spawner. by rewrite Hhalt, Hspa.
  - destruct (decide (wg s = 0%Z)) as [Hz|Hz].
    + exists ActSpawner. unfold step, step_spawner. rewrite Hhalt, Hspa, Hz. done.
    + destruct (countb_pos_lookup (fun g => undone (gpc g)) (getters s))
        as (i & g & Hg & Hu).
      { pose proof (countb_nonneg (fun g => undone (gpc g)) (getters s)).
        simpl in *. lia. }
      destruct (undone_getter_progress E cfg s i g Hinv Hhalt Hg Hu); eauto.
  - exists ActSpawner. unfold step, step_spawner. by rewrite Hhalt, Hspa.
  - exists ActSpawner. unfold step, step_spawner, send_reply. rewrite Hhalt, Hspa, Hmain.
    by destruct (closed_opStatus s).
  - destruct (wri s) eqn:Hwri; try done.
    + exists ActWriter. unfold step, step_writer. rewrite Hhalt, Hwri, Hbox. done.
    + exists ActWriter. unfold step, step_writer. rewrite Hhalt, Hwri.
      by destruct (Writer_Write _ _ _ _ _).
    + exists ActWriter. unfold step, step_writer, send_reply. rewrite Hhalt, Hwri, Hmain.
      by destruct (closed_opStatus s).
    + exists ActWriter. unfold step, step_writer. rewrite Hhalt, Hwri. done.
    + exists ActMain. unfold step, step_main. rewrite Hhalt, Hmain, Hsup. done.
Qed.

(** What every run has in common when the search succeeds. *)
Lemma run_summary E cfg fs results sched s :
  Requester_Request E (query cfg) (accKey cfg) = inl results ->
  run E cfg sched (initial fs) = Some s ->
  (live_getters s <= window cfg)%Z
  /\ (getter_records s <= Z.of_nat (length (getters s)))%Z
  /\ (Z.of_nat (length (getters s)) <= Z.of_nat (length results))%Z
  /\ (stuck E cfg s ->
      getter_records s = Z.of_nat (length results)
      /\ Z.of_nat (length (getters s)) = Z.of_nat (length results))
  /\ (Z.of_nat (length sched) <= 9 * Z.of_nat (length results) + 18)%Z.
Proof.
  intros Hrequest Hrun.
  pose proof (run_Inv _ _ _ _ _ Hrun) as Hinv.
  pose proof (run_InvReq _ _ _ _ _ _ Hrequest Hrun) as Hreq.
  split; [|split; [|split; [|split]]].
  - destruct Hinv as [Hlive Hwin _ _ _ _ _ _ _ _ _ _]. rewrite <- Hlive.
    destruct (spa s); lia.
  - destruct Hinv as [_ _ _ Hrec _ _ _ _ _ _ _ _]. rewrite Hrec.
    apply countb_le_length.
  - unfold InvReq, launched in Hreq.
    destruct (req s) as [| | | |[]|], (spa s); destruct_and?; simplify_eq/=; lia.
  - intros Hstuck. eapply halted_getter_records; [done..|].
    destruct (halted s) eqn:Hhalt; [done|].
    destruct (progress E cfg results s Hrequest Hinv Hreq Hhalt) as [a [s' Hs']].
    rewrite Hstuck in Hs'. done.
  - pose proof (run_steps_left _ _ _ _ _ Hrun) as Hleft.
    pose proof (steps_left_nonneg E cfg s).
    unfold steps_left in Hleft at 2. simpl in Hleft. rewrite Hrequest in Hleft. lia.
Qed.

(** C1. With a budget of at least 1 and a search that returned N
    descriptors, in every state of every run at most [maxRoutines] Getters
    are live (launched, completion signal not yet received), [main] has
    received at most N replies of Getters, it has received exactly N when
    no step is left, and that happens after at most 9 N + 18 steps. *)
Theorem bounded_fetchers E cfg fs results sched s :
  Requester_Request E (query cfg) (accKey cfg) = inl results ->
  (1 <= maxRoutines cfg)%Z ->
  run E cfg sched (initial fs) = Some s ->
  (live_getters s <= maxRoutines cfg)%Z
  /\ (getter_records s <= Z.of_nat (length results))%Z
  /\ (stuck E cfg s -> getter_records s = Z.of_nat (length results))
  /\ (Z.of_nat (length sched) <= 9 * Z.of_nat (length results) + 18)%Z.
Proof.
  intros Hrequest Hbudget Hrun.
  destruct (run_summary E cfg fs results sched s Hrequest Hrun)
    as (Hlive & Hrec & Hlen & Hstuck & Hsteps).
  unfold window in Hlive. split; [lia|]. split; [lia|]. split; [|lia].
  intros H. by apply Hstuck.
Qed.

(** Examples: two pictures, a server that answers every request. *)
Definition pic_a : ResultPair := {| Title := "a"; MediaUrl := "http://h/a.png" |}.
Definition pic_b : ResultPair := {| Title := "b"; MediaUrl := "http://h/b.png" |}.

Definition served (u : string) : Response + error := ok200 ("image at " +:+ u).

Definition flags (budget : Z) : Config :=
  {| outputDir := "/tmp"; maxRoutines := budget; query := "cat"; accKey := "key" |}.

(** One Getter at a time: each descriptor is fetched and written before
    the next one is taken. *)
Definition one_by_one : list Action :=
  [ActRequester; ActSpawner; ActRequester; ActRequester; ActSpawner;
   ActGetter 0; ActGetter 0; ActWriter; ActGetter 0; ActGetter 0; ActGetter 0;
   ActRequester; ActRequester; ActSpawner;
   ActGetter 1; ActGetter 1; ActWriter; ActGetter 1; ActGetter 1; ActGetter 1;
   ActRequester; ActRequester; ActRequester;
   ActSpawner; ActSpawner; ActSpawner; ActSpawner; ActSpawner;
   ActWriter; ActWriter; ActWriter; ActMain].

Lemma bounded_fetchers_witness :
  exists s,
    run (quiet [pic_a; pic_b] served) (flags 1) one_by_one (initial ∅) = Some s
    /\ (live_getters s <= maxRoutines (flags 1))%Z
    /\ (getter_records s <= Z.of_nat (length [pic_a; pic_b]))%Z
    /\ (stuck (quiet [pic_a; pic_b] served) (flags 1) s ->
        getter_records s = Z.of_nat (length [pic_a; pic_b]))
    /\ (Z.of_nat (length one_by_one) <= 9 * Z.of_nat (length [pic_a; pic_b]) + 18)%Z.
Proof.
  eexists. split; [vm_compute; reflexivity|].
  apply (bounded_fetchers (quiet [pic_a; pic_b] served) (flags 1) ∅ [pic_a; pic_b] one_by_one);
    [reflexivity | simpl; lia | vm_compute; reflexivity].
Defined.

(** *** What the Spawner and the Writer report *)

Lemma ObjType_deferred_reply name rec : ObjType (deferred_reply name rec) = name.
Proof. by destruct rec. Qed.

(** Every reply of the Spawner or of the Writer that [main] has received
    says Success. *)
Definition quiet_reply (r : OperationReply) : Prop :=
  ObjType r = "Spawner" \/ ObjType r = "Writer" -> r = deferred_reply (ObjType r) None.

Lemma step_quiet_replies E cfg a s s' :
  Forall quiet_reply (observed s) -> step E cfg a s = Some s' ->
  Forall quiet_reply (observed s').
Proof.
  unfold step, halted. intros Hobs Hstep.
  destruct s as [rq sp wr mn gs pr w c cp cg co fs obs cr]; simpl in *.
  destruct cr; [done|]. destruct mn; [|done]. simpl in Hstep.
  destruct a as [| |i| |].
  - unfold step_requester, send_reply in Hstep; simpl in Hstep.
    repeat case_match; simplify_eq/=; try done.
    apply Forall_app; split; [done|]. constructor; [|done].
    unfold quiet_reply. rewrite ObjType_deferred_reply. by intros [|].
  - unfold step_spawner, send_reply in Hstep; simpl in Hstep.
    repeat case_match; simplify_eq/=; try done.
    apply Forall_app; split; [done|]. constructor; [|done]. by intros _.
  - unfold step_getter, send_reply, set_gpc in Hstep; simpl in Hstep.
    repeat case_match; simplify_eq/=; try done.
    apply Forall_app; split; [done|]. constructor; [|done].
    unfold quiet_reply. rewrite ObjType_deferred_reply. by intros [|].
  - unfold step_writer, send_reply in Hstep; simpl in Hstep.
    repeat case_match; simplify_eq/=; try done.
    apply Forall_app; split; [done|]. constructor; [|done]. by intros _.
  - unfold step_main in Hstep; simpl in Hstep.
    repeat case_match; simplify_eq/=; try done.
Qed.

Lemma run_quiet_replies E cfg fs sched s :
  run E cfg sched (initial fs) = Some s -> Forall quiet_reply (observed s).
Proof.
  apply (run_invariant E cfg (fun s => Forall quiet_reply (observed s)));
    [apply step_quiet_replies|constructor].
Qed.

(** A budget of zero: the Spawner is built and runs; the run below ends
    with one Getter launched and finished, its file written, and four
    replies, all Success, the Spawner's among them. *)
Definition zero_budget_run : list Action :=
  [ActRequester; ActSpawner; ActRequester; ActRequester; ActSpawner;
   ActGetter 0; ActGetter 0; ActWriter; ActGetter 0; ActGetter 0; ActGetter 0;
   ActRequester; ActRequester; ActRequester;
   ActSpawner; ActSpawner; ActSpawner; ActSpawner; ActSpawner;
   ActWriter; ActWriter; ActWriter; ActMain].

Lemma zero_budget_launches :
  match run (quiet [pic_a] served) (flags 0) zero_budget_run (initial ∅) with
  | Some s =>
      halted s = true
      /\ getters s = [{| url := "http://h/a.png"; gpc := GetExit |}]
      /\ map_to_list (files s) = [("/tmp/a.png", "image at http://h/a.png")]
      /\ observed s = [deferred_reply "Getter" None; deferred_reply "Requester" None;
                       deferred_reply "Spawner" None; deferred_reply "Writer" None]
  | None => False
  end.
Proof. vm_compute. repeat split. Qed.

(** C2, as the code has it. A budget of zero or less is not rejected: the
    Spawner takes every descriptor and launches a Getter for it, waiting
    for each Getter's completion signal before it takes the next, so at
    most one Getter is live; when no step is left every one of the N
    descriptors has had its Getter and its reply; and the Spawner never
    reports Failure. *)
Theorem nonpositive_budget_runs E cfg fs results sched s :
  Requester_Request E (query cfg) (accKey cfg) = inl results ->
  (maxRoutines cfg <= 0)%Z ->
  run E cfg sched (initial fs) = Some s ->
  (live_getters s <= 1)%Z
  /\ (stuck E cfg s ->
      Z.of_nat (length (getters s)) = Z.of_nat (length results)
      /\ getter_records s = Z.of_nat (length results))
  /\ (forall r, In r (observed s) -> ObjType r = "Spawner" ->
      Status r = Success /\ ErrorMsg r = None).
Proof.
  intros Hrequest Hbudget Hrun.
  destruct (run_summary E cfg fs results sched s Hrequest Hrun)
    as (Hlive & Hrec & Hlen & Hstuck & Hsteps).
  unfold window in Hlive. split; [lia|]. split.
  - intros H. destruct (Hstuck H). done.
  - intros r Hr Hspawner.
    pose proof (run_quiet_replies _ _ _ _ _ Hrun) as Hobs.
    rewrite Forall_forall in Hobs. apply list_elem_of_In in Hr.
    rewrite (Hobs r Hr) by auto. done.
Qed.

Lemma nonpositive_budget_runs_witness :
  exists s,
    run (quiet [pic_a] served) (flags 0) zero_budget_run (initial ∅) = Some s
    /\ (live_getters s <= 1)%Z
    /\ (stuck (quiet [pic_a] served) (flags 0) s ->
        Z.of_nat (length (getters s)) = Z.of_nat (length [pic_a])
        /\ getter_records s = Z.of_nat (length [pic_a]))
    /\ (forall r, In r (observed s) -> ObjType r = "Spawner" ->
        Status r = Success /\ ErrorMsg r = None).
Proof.
  eexists. split; [vm_compute; reflexivity|].
  apply (nonpositive_budget_runs (quiet [pic_a] served) (flags 0) ∅ [pic_a] zero_budget_run);
    [reflexivity | simpl; lia | vm_compute; reflexivity].
Defined.

(** *** What a Getter reports *)










Definition one_fetch : list Action :=
  [ActRequester; ActSpawner; ActRequester; ActRequester; ActSpawner;
   ActGetter 0; ActGetter 0; ActWriter; ActGetter 0; ActGetter 0; ActGetter 0;
   ActRequester; ActRequester; ActRequester;
   ActSpawner; ActSpawner; ActSpawner; ActSpawner; ActSpawner;
   ActWriter; ActWriter; ActWriter; ActMain].




(** *** The Writer's errors *)

(** A world in which no file can be created. *)
Definition read_only (results : list ResultPair) : Env :=
  world (ok200 "{}") results served
    (fun name => Some (errorString ("open " +:+ name +:+ ": permission denied"))).

(** A file system in which [/tmp/a.png] and its hundred siblings exist. *)
Definition crowded : FileSystem :=
  list_to_map (("/tmp/a.png", "")
               :: map (fun i => ("/tmp/a_" +:+ pretty (Z.of_nat i) +:+ ".png", ""))
                    (seq 0 100)).

(** C4. [Writer.Main] calls [Write] as a statement and drops the error it
    returns. Where no file can be created, and where every name is taken,
    [Write] returns an error for the picture, and the run still ends with
    four replies that all say Success, the Writer's among them, and with
    no file more than before. *)
Theorem writer_drops_errors :
  (Writer_Write (read_only [pic_a]) "/tmp" "a.png"
     {| rc_data := "image at http://h/a.png"; rc_err := None |} ∅).1
  = Some (errorString "open /tmp/a.png: permission denied")
  /\ (Writer_Write (quiet [pic_a] served) "/tmp" "a.png"
        {| rc_data := "image at http://h/a.png"; rc_err := None |} crowded).1
     = Some (errorString "a number (maxIndices) of files have a similar name to a.png")
  /\ match run (read_only [pic_a]) (flags 1) one_fetch (initial ∅) with
     | Some s =>
         halted s = true /\ map_to_list (files s) = []
         /\ observed s = [deferred_reply "Getter" None; deferred_reply "Requester" None;
                          deferred_reply "Spawner" None; deferred_reply "Writer" None]
     | None => False
     end
  /\ match run (quiet [pic_a] served) (flags 1) one_fetch (initial crowded) with
     | Some s =>
         halted s = true /\ size (files s) = size crowded
         /\ observed s = [deferred_reply "Getter" None; deferred_reply "Requester" None;
                          deferred_reply "Spawner" None; deferred_reply "Writer" None]
     | None => False
     end.
Proof. vm_compute. repeat split. Qed.


(** *** Who sends last *)

(** The search found nothing. The Writer replies and closes the channel
    of [main] while the Spawner and the Requester have not sent yet. *)
Definition writer_first : list Action :=
  [ActRequester; ActRequester; ActRequester;
   ActSpawner; ActSpawner; ActSpawner; ActSpawner; ActSpawner;
   ActWriter; ActWriter; ActWriter].

(** The same run, but the Spawner's send comes between the Writer's send
    and the Writer's close. *)
Definition spawner_between : list Action :=
  [ActRequester; ActRequester; ActRequester;
   ActSpawner; ActSpawner; ActSpawner; ActSpawner; ActSpawner;
   ActWriter; ActWriter; ActSpawner; ActWriter; ActMain].

(** C5. Nothing orders the Writer's reply and close after the replies of
    the Spawner and of the Requester. In the first run the Writer has
    closed the channel while the Spawner and the Requester still have
    their reply to send: the step of either is a send on a closed channel,
    a panic that ends the process. In the second run [main] receives the
    reply of the Spawner after that of the Writer. *)
Theorem writer_not_last :
  match run (quiet [] served) (flags 1) writer_first (initial ∅) with
  | Some s =>
      closed_opStatus s = true /\ halted s = false
      /\ spa s = SpaReply /\ req s = ReqReply None
      /\ observed s = [deferred_reply "Writer" None]
      /\ crashed <$> step (quiet [] served) (flags 1) ActSpawner s = Some true
      /\ crashed <$> step (quiet [] served) (flags 1) ActRequester s = Some true
  | None => False
  end
  /\ match run (quiet [] served) (flags 1) spawner_between (initial ∅) with
     | Some s =>
         halted s = true
         /\ observed s = [deferred_reply "Writer" None; deferred_reply "Spawner" None]
     | None => False
     end.
Proof. vm_compute. repeat split. Qed.

(** *** Getters that never end *)

(** A budget of two and one picture: the Spawner never waits for the
    Getter's signal. *)
Definition nobody_listens : list Action :=
  [ActRequester; ActSpawner; ActRequester; ActRequester; ActSpawner;
   ActGetter 0; ActGetter 0; ActWriter; ActGetter 0; ActGetter 0;
   ActRequester; ActRequester; ActRequester;
   ActSpawner; ActSpawner; ActSpawner; ActSpawner; ActSpawner;
   ActWriter; ActWriter; ActWriter; ActMain].

(** C6. With a budget of two and one descriptor the Getter sends its
    reply and calls [wg.Done], and then blocks on its send to the probe
    channel: the Spawner has left its loop without receiving. Its step is
    not possible, before or after the Spawner has finished, and the
    process ends with the Getter still there. *)
Theorem getter_blocks_on_probe :
  match run (quiet [pic_a] served) (flags 2) (take 10 nobody_listens) (initial ∅) with
  | Some s =>
      getters s = [{| url := "http://h/a.png"; gpc := GetProbe |}]
      /\ spa s = SpaRecv
      /\ step (quiet [pic_a] served) (flags 2) (ActGetter 0) s = None
  | None => False
  end
  /\ match run (quiet [pic_a] served) (flags 2) (take 21 nobody_listens) (initial ∅) with
     | Some s =>
         getters s = [{| url := "http://h/a.png"; gpc := GetProbe |}]
         /\ spa s = SpaDone /\ halted s = false
         /\ step (quiet [pic_a] served) (flags 2) (ActGetter 0) s = None
     | None => False
     end
  /\ match run (quiet [pic_a] served) (flags 2) nobody_listens (initial ∅) with
     | Some s =>
         halted s = true
         /\ getters s = [{| url := "http://h/a.png"; gpc := GetProbe |}]
         /\ observed s = [deferred_reply "Getter" None; deferred_reply "Requester" None;
                          deferred_reply "Spawner" None; deferred_reply "Writer" None]
     | None => False
     end.
Proof. vm_compute. repeat split. Qed.

(** *** Which picture a Getter fetches *)

(** Two pictures, a budget of two. The Requester goes on to its second
    iteration, and stores the second descriptor in [pair], before the
    Spawner reads [pair.MediaUrl] for the first Getter. *)
Definition requester_ahead : list Action :=
  [ActRequester; ActSpawner; ActRequester; ActRequester; ActRequester; ActSpawner;
   ActRequester; ActSpawner;
   ActGetter 0; ActGetter 0; ActWriter; ActGetter 0; ActGetter 0; ActGetter 0;
   ActGetter 1; ActGetter 1; ActWriter; ActGetter 1; ActGetter 1;
   ActRequester; ActRequester; ActRequester;
   ActSpawner; ActSpawner; ActSpawner; ActSpawner; ActSpawner;
   ActWriter; ActWriter; ActWriter; ActMain].

(** C7. The Requester sends the address of its one loop variable. In this
    run of two descriptors both Getters are bound to the locator of the
    second: the first picture is never fetched, the second is fetched
    and written twice. *)
Theorem getters_share_pair :
  match run (quiet [pic_a; pic_b] served) (flags 2) (take 6 requester_ahead) (initial ∅) with
  | Some s =>
      req s = ReqSend [] /\ pair s = pic_b
      /\ getters s = [{| url := MediaUrl pic_b; gpc := GetCall |}]
  | None => False
  end
  /\ match run (quiet [pic_a; pic_b] served) (flags 2) requester_ahead (initial ∅) with
     | Some s =>
         halted s = true
         /\ map url (getters s) = ["http://h/b.png"; "http://h/b.png"]
         /\ map_to_list (files s) = [("/tmp/b_0.png", "image at http://h/b.png");
                                      ("/tmp/b.png", "image at http://h/b.png")]
         /\ getter_records s = 2%Z
     | None => False
     end.
Proof. vm_compute. repeat split. Qed.

(** *** A search that fails *)

(** The steps left when [Request] has returned an error: the Requester's
    call and reply, and the Spawner's start. *)
Definition failed_search_left (s : State) : Z :=
  match req s with ReqCall => 2 | ReqReply _ => 1 | _ => 0 end
  + match spa s with SpaStart => 1 | _ => 0 end.

(** The states of a run in which [Request] returned [err]. *)
Record FailedSearch (err : error) (s : State) : Prop := {
  fs_req :
    match req s with
    | ReqCall => observed s = []
    | ReqReply rec => rec = Some err /\ observed s = []
    | ReqDone => observed s = [deferred_reply "Requester" (Some err)]
    | _ => False
    end;
  fs_spa :
    match spa s with
    | SpaStart => wri s = WriNone
    | SpaRecv => wri s = WriRecv
    | _ => False
    end;
  fs_getters : getters s = [];
  fs_chanPair : closed_chanPair s = false;
  fs_getAndWrite : closed_getAndWrite s = false;
  fs_opStatus : closed_opStatus s = false;
  fs_halted : halted s = false;
}.

Lemma step_FailedSearch E cfg err a s s' :
  Requester_Request E (query cfg) (accKey cfg) = inr err ->
  FailedSearch err s -> step E cfg a s = Some s' ->
  FailedSearch err s' /\ (failed_search_left s' + 1 <= failed_search_left s)%Z.
Proof.
  unfold step, failed_search_left. intros Hrequest Hfs Hstep.
  rewrite (fs_halted _ _ Hfs) in Hstep.
  pose proof (fs_halted _ _ Hfs) as Hhalt. unfold halted in Hhalt.
  destruct s as [rq sp wr mn gs pr w c cp cg co fs obs cr]; simpl in *.
  destruct a as [| |i| |].
  - unfold step_requester, send_reply in Hstep; simpl in Hstep.
    destruct rq; simpl in *; try by destruct Hfs.
    + rewrite Hrequest in Hstep. simplify_eq. destruct Hfs.
      (split; [split; simpl in *; auto|simpl; destruct sp; lia]).
    + destruct Hfs; simpl in *. destruct_and?. simplify_eq/=.
      destruct mn; [|done]. simplify_eq/=.
      (split; [split; simpl in *; auto|simpl; destruct sp; lia]).
  - unfold step_spawner, send_reply in Hstep; simpl in Hstep.
    destruct sp; simpl in *; try by destruct Hfs.
    + simplify_eq. destruct Hfs; simpl in *. split; [split; simpl in *; auto|].
      simpl. destruct rq; lia.
    + destruct Hfs; simpl in *. by simplify_eq/=.
  - unfold step_getter in Hstep; simpl in Hstep.
    destruct Hfs; simpl in *. by subst.
  - unfold step_writer, send_reply in Hstep; simpl in Hstep.
    destruct Hfs; simpl in *. destruct sp; try done; by simplify_eq/=.
  - unfold step_main in Hstep; simpl in Hstep.
    destruct Hfs; simpl in *. destruct mn; by simplify_eq/=.
Qed.

Lemma run_FailedSearch E cfg err sched s s' :
  Requester_Request E (query cfg) (accKey cfg) = inr err ->
  FailedSearch err s -> run E cfg sched s = Some s' ->
  FailedSearch err s'
  /\ (Z.of_nat (length sched) + failed_search_left s' <= failed_search_left s)%Z.
Proof.
  intros Hrequest. revert s.
  induction sched as [|a sched IH]; intros s Hs Hrun; simplify_eq/=; [split; [done|lia]|].
  destruct (step E cfg a s) as [s1|] eqn:Hstep; [|done].
  destruct (step_FailedSearch E cfg err a s s1 Hrequest Hs Hstep) as [Hs1 Hleft].
  destruct (IH s1 Hs1 Hrun). split; [done|lia].
Qed.

Lemma FailedSearch_initial err fs : FailedSearch err (initial fs).
Proof. by split. Qed.




(** ** Part 5. More on the naming and the writing of files *)


(** [/tmp/foo.png] and [/tmp/foo_0.png] exist. *)
Definition two_foos : FileSystem :=
  list_to_map [("/tmp/foo.png", "first"); ("/tmp/foo_0.png", "second")].


Lemma crowded_candidates j :
  (0 <= j < maxIndices)%Z ->
  is_Some (crowded !! candidate (quiet [] served) "/tmp/a.png" j).
Proof.
  intros Hj.
  assert (forallb (fun i => match crowded !! candidate (quiet [] served) "/tmp/a.png"
                                    (Z.of_nat i) with
                            | Some _ => true
                            | None => false
                            end) (seq 0 100) = true) as Hall
    by (vm_compute; reflexivity).
  rewrite forallb_forall in Hall. specialize (Hall (Z.to_nat j)).
  rewrite Z2Nat.id in Hall by lia.
  destruct (crowded !! _); [eauto|].
  discriminate Hall. apply in_seq. unfold maxIndices in Hj. lia.
Defined.

Lemma validFilenameMaker_exhausted_witness :
  validFilenameMaker (quiet [] served) "/tmp/a.png" crowded
  = (("", Some (errorString ("a number (maxIndices) of files have a similar name to "
                             +:+ filepath.Base "/tmp/a.png"))), crowded).
Proof.
  apply (validFilenameMaker_exhausted (quiet [] served) "/tmp/a.png" crowded).
  - vm_compute. eauto.
  - exact crowded_candidates.
Defined.

(** What the loop returns: a candidate that is free, all candidates before
    it being taken; or nothing, all candidates being taken. *)
Lemma validFilenameMaker_loop_result E P todo i fs :
  match (validFilenameMaker_loop E (filepath.Dir P) (stem P) (filepath.Ext P)
           todo i fs).1 with
  | Some p =>
      exists k, (k < todo)%nat /\ p = candidate E P (i + Z.of_nat k)
                /\ fs !! p = None
                /\ forall j, (j < k)%nat -> is_Some (fs !! candidate E P (i + Z.of_nat j))
  | None => forall j, (j < todo)%nat -> is_Some (fs !! candidate E P (i + Z.of_nat j))
  end.
Proof.
  revert i. induction todo as [|todo IH]; intros i.
  - simpl. intros j Hj. lia.
  - rewrite validFilenameMaker_loop_S.
    destruct (fs !! candidate E P i) as [x|] eqn:Hi.
    + specialize (IH (i + 1)%Z).
      destruct (validFilenameMaker_loop _ _ _ _ _ _ _).1 as [p|].
      * destruct IH as (k & Hk & Hp & Hfree & Hbelow). exists (S k).
        replace (i + Z.of_nat (S k))%Z with (i + 1 + Z.of_nat k)%Z by lia.
        split; [lia|]. split; [done|]. split; [done|].
        intros [|j] Hj.
        -- replace (i + Z.of_nat 0)%Z with i by lia. eauto.
        -- replace (i + Z.of_nat (S j))%Z with (i + 1 + Z.of_nat j)%Z by lia.
           apply Hbelow. lia.
      * intros [|j] Hj.
        -- replace (i + Z.of_nat 0)%Z with i by lia. eauto.
        -- replace (i + Z.of_nat (S j))%Z with (i + 1 + Z.of_nat j)%Z by lia.
           apply IH. lia.
    + simpl. exists O. replace (i + Z.of_nat 0)%Z with i by lia.
      split; [lia|]. split; [done|]. split; [done|]. intros j Hj. lia.
Qed.

(** The three ways [validFilenameMaker] returns. *)
Lemma validFilenameMaker_result E P fs :
  match (validFilenameMaker E P fs).1 with
  | (p, None) =>
      fs !! p = None
      /\ (p = P
          \/ is_Some (fs !! P)
             /\ exists k, (0 <= k < maxIndices)%Z /\ p = candidate E P k
                /\ forall j, (0 <= j < k)%Z -> is_Some (fs !! candidate E P j))
  | (p, Some err) =>
      p = ""
      /\ err = errorString ("a number (maxIndices) of files have a similar name to "
                            +:+ filepath.Base P)
      /\ is_Some (fs !! P)
      /\ forall j, (0 <= j < maxIndices)%Z -> is_Some (fs !! candidate E P j)
  end.
Proof.
  rewrite validFilenameMaker_unfold.
  destruct (fs !! P) as [x|] eqn:HP; [|simpl; auto].
  pose proof (validFilenameMaker_loop_result E P (Z.to_nat maxIndices) 0 fs) as Hloop.
  destruct (validFilenameMaker_loop _ _ _ _ _ _ _) as [[p|] fs']; simpl in *.
  - destruct Hloop as (k & Hk & Hp & Hfree & Hbelow). split; [done|]. right.
    split; [eauto|]. exists (Z.of_nat k). unfold maxIndices in *.
    split; [lia|]. split; [done|].
    intros j Hj. specialize (Hbelow (Z.to_nat j)).
    rewrite Z.add_0_l, Z2Nat.id in Hbelow by lia. apply Hbelow. lia.
  - split; [done|]. split; [done|]. split; [eauto|].
    intros j Hj. specialize (Hloop (Z.to_nat j)). unfold maxIndices in *.
    rewrite Z.add_0_l, Z2Nat.id in Hloop by lia. apply Hloop. lia.
Qed.

(** X4. The path [validFilenameMaker] returns without an error is valid:
    no file exists at it. It is the path asked for, or, that one being
    taken, the first of the hundred candidates that is free. *)
Theorem validFilenameMaker_returns_free E P fs p :
  (validFilenameMaker E P fs).1 = (p, None) ->
  fs !! p = None
  /\ (p = P
      \/ is_Some (fs !! P)
         /\ exists k, (0 <= k < maxIndices)%Z /\ p = candidate E P k
            /\ forall j, (0 <= j < k)%Z -> is_Some (fs !! candidate E P j)).
Proof.
  intros Hcall. pose proof (validFilenameMaker_result E P fs) as H.
  by rewrite Hcall in H.
Qed.

Lemma validFilenameMaker_returns_free_witness :
  two_foos !! "/tmp/foo_1.png" = None
  /\ ("/tmp/foo_1.png" = "/tmp/foo.png"
      \/ is_Some (two_foos !! "/tmp/foo.png")
         /\ exists k, (0 <= k < maxIndices)%Z
            /\ "/tmp/foo_1.png" = candidate (quiet [] served) "/tmp/foo.png" k
            /\ forall j, (0 <= j < k)%Z ->
                 is_Some (two_foos !! candidate (quiet [] served) "/tmp/foo.png" j)).
Proof.
  apply (validFilenameMaker_returns_free (quiet [] served) "/tmp/foo.png" two_foos
           "/tmp/foo_1.png").
  vm_compute. reflexivity.
Defined.



(** *** [Writer.Write] *)

(** What a call of [Write] leaves of the file system: nothing changed, or
    one file more, at a path that was free, holding the body or, after a
    failure, the bytes that were written before it. *)
Lemma Writer_Write_result E dir imgName rc fs :
  match Writer_Write E dir imgName rc fs with
  | (None, fs') =>
      rc_err rc = None
      /\ exists path, fs !! path = None /\ fs' = <[path := rc_data rc]> fs
  | (Some err, fs') =>
      fs' = fs
      \/ exists path n, fs !! path = None /\ fs' = <[path := substring 0 n (rc_data rc)]> fs
  end.
Proof.
  unfold Writer_Write, mbind, IO_bind.
  pose proof (validFilenameMaker_result E (filepath.Join [dir; imgName]) fs) as Hvalid.
  pose proof (validFilenameMaker_files E (filepath.Join [dir; imgName]) fs) as Hfiles.
  destruct (validFilenameMaker _ _ _) as [[p [e|]] fs1]; simpl in *; subst fs1.
  { by left. }
  destruct Hvalid as [Hfree _].
  unfold os.Create. destruct (os_Create_fails E p) as [e|]; [by left|].
  unfold ioutil.ReadAll. destruct (rc_err rc) as [e|] eqn:Hread.
  { right. exists p, O. split; [done|]. by destruct (rc_data rc). }
  unfold os.Write. destruct (file_Write_fails E p (rc_data rc)) as [[n e]|].
  - right. exists p, n. split; [done|]. by rewrite insert_insert_eq.
  - split; [done|]. exists p. split; [done|]. by rewrite insert_insert_eq.
Qed.

Lemma Writer_Write_lookup E dir imgName rc fs p v :
  fs !! p = Some v -> (Writer_Write E dir imgName rc fs).2 !! p = Some v.
Proof.
  intros Hp. pose proof (Writer_Write_result E dir imgName rc fs) as H.
  destruct (Writer_Write _ _ _ _ _) as [[e|] fs']; simpl.
  - destruct H as [->|(path & n & Hfree & ->)]; [done|].
    rewrite lookup_insert_ne; [done|]. intros ->. congruence.
  - destruct H as (_ & path & Hfree & ->).
    rewrite lookup_insert_ne; [done|]. intros ->. congruence.
Qed.

Lemma Writer_Write_size E dir imgName rc fs :
  (size (Writer_Write E dir imgName rc fs).2 <= S (size fs))%nat.
Proof.
  pose proof (Writer_Write_result E dir imgName rc fs) as H.
  destruct (Writer_Write _ _ _ _ _) as [[e|] fs']; simpl.
  - destruct H as [->|(path & n & Hfree & ->)]; [lia|].
    by rewrite map_size_insert_None.
  - destruct H as (_ & path & Hfree & ->). by rewrite map_size_insert_None.
Qed.

(** X6. [Writer.Write] never overwrites, truncates or removes: whatever
    the call returns, every file that exists before it exists after it
    with the same content, and at most one file is new. *)
Theorem Writer_Write_keeps_files E dir imgName rc fs :
  (forall p v, fs !! p = Some v ->
     (Writer_Write E dir imgName rc fs).2 !! p = Some v)
  /\ (size (Writer_Write E dir imgName rc fs).2 <= S (size fs))%nat.
Proof.
  split.
  - intros p v. apply Writer_Write_lookup.
  - apply Writer_Write_size.
Qed.

(** X7. When [Writer.Write] returns no error, the body could be read and
    the file system has exactly one file more: at a path that was free,
    holding the bytes of the body. *)
Theorem Writer_Write_success E dir imgName rc fs fs' :
  Writer_Write E dir imgName rc fs = (None, fs') ->
  rc_err rc = None
  /\ exists path, fs !! path = None /\ fs' = <[path := rc_data rc]> fs.
Proof.
  intros Hcall. pose proof (Writer_Write_result E dir imgName rc fs) as H.
  by rewrite Hcall in H.
Qed.

Lemma Writer_Write_success_witness :
  rc_err {| rc_data := "third"; rc_err := None |} = None
  /\ exists path,
       two_foos !! path = None
       /\ <["/tmp/foo_1.png" := "third"]> two_foos
          = <[path := rc_data {| rc_data := "third"; rc_err := None |}]> two_foos.
Proof.
  apply (Writer_Write_success (quiet [] served) "/tmp" "foo.png"
           {| rc_data := "third"; rc_err := None |} two_foos
           (<["/tmp/foo_1.png" := "third"]> two_foos)).
  vm_compute. reflexivity.
Defined.

(** X8. Without failures and with the name free, [Writer.Write] stores the
    bytes of the body, as they are, in the file named [dir/imgName], and
    touches no other file. *)
Theorem Writer_Write_stores E dir imgName rc fs :
  fs !! filepath.Join [dir; imgName] = None ->
  os_Create_fails E (filepath.Join [dir; imgName]) = None ->
  rc_err rc = None ->
  file_Write_fails E (filepath.Join [dir; imgName]) (rc_data rc) = None ->
  Writer_Write E dir imgName rc fs
  = (None, <[filepath.Join [dir; imgName] := rc_data rc]> fs).
Proof.
  intros Hfree Hcreate Hread Hwrite.
  unfold Writer_Write, mbind, IO_bind.
  rewrite validFilenameMaker_unfold, Hfree.
  unfold os.Create. rewrite Hcreate.
  unfold ioutil.ReadAll. rewrite Hread.
  unfold os.Write. rewrite Hwrite.
  by rewrite insert_insert_eq.
Qed.

Lemma Writer_Write_stores_witness :
  Writer_Write (quiet [] served) "/tmp" "a.png"
    {| rc_data := "image"; rc_err := None |} ∅
  = (None, <[filepath.Join ["/tmp"; "a.png"] := "image"]> ∅).
Proof.
  apply (Writer_Write_stores (quiet [] served) "/tmp" "a.png"
           {| rc_data := "image"; rc_err := None |} ∅); reflexivity.
Defined.

(** X9. [Writer.Write] creates the file before it reads the body: when the
    body cannot be read, the call returns the read error and leaves an
    empty file at the path it chose. *)
Theorem Writer_Write_read_error E dir imgName rc fs err :
  fs !! filepath.Join [dir; imgName] = None ->
  os_Create_fails E (filepath.Join [dir; imgName]) = None ->
  rc_err rc = Some err ->
  Writer_Write E dir imgName rc fs
  = (Some err, <[filepath.Join [dir; imgName] := ""]> fs).
Proof.
  intros Hfree Hcreate Hread.
  unfold Writer_Write, mbind, IO_bind.
  rewrite validFilenameMaker_unfold, Hfree.
  unfold os.Create. rewrite Hcreate.
  unfold ioutil.ReadAll. by rewrite Hread.
Qed.

Lemma Writer_Write_read_error_witness :
  Writer_Write (quiet [] served) "/tmp" "a.png"
    {| rc_data := "ima"; rc_err := Some (errorString "unexpected EOF") |} ∅
  = (Some (errorString "unexpected EOF"), <[filepath.Join ["/tmp"; "a.png"] := ""]> ∅).
Proof.
  apply (Writer_Write_read_error (quiet [] served) "/tmp" "a.png"
           {| rc_data := "ima"; rc_err := Some (errorString "unexpected EOF") |} ∅);
    reflexivity.
Defined.

(** *** The name and its extension *)

Lemma string_of_list_ascii_app l1 l2 :
  string_of_list_ascii (l1 ++ l2)
  = string_of_list_ascii l1 +:+ string_of_list_ascii l2.
Proof. induction l1 as [|c l1 IH]; simpl; [done|]. by rewrite IH. Qed.

Lemma length_string_app (s1 s2 : string) :
  String.length (s1 +:+ s2) = (String.length s1 + String.length s2)%nat.
Proof. induction s1 as [|c s1 IH]; simpl; [done|]. by rewrite IH. Qed.

Lemma substring_app_l (s1 s2 : string) :
  substring 0 (String.length s1) (s1 +:+ s2) = s1.
Proof. induction s1 as [|c s1 IH]; simpl; [by destruct s2|]. by rewrite IH. Qed.

Lemma substring_all (s : string) : substring 0 (String.length s) s = s.
Proof. induction s as [|c s IH]; simpl; [done|]. by rewrite IH. Qed.

Lemma substring_app_r (s1 s2 : string) :
  substring (String.length s1) (String.length s2) (s1 +:+ s2) = s2.
Proof. induction s1 as [|c s1 IH]; simpl; [apply substring_all|done]. Qed.

Lemma TrimSuffix_app (pre suffix : string) :
  strings.TrimSuffix (pre +:+ suffix) suffix = pre.
Proof.
  unfold strings.TrimSuffix, strings.HasSuffix.
  rewrite length_string_app.
  replace (String.length pre + String.length suffix - String.length suffix)%nat
    with (String.length pre) by lia.
  rewrite substring_app_r, substring_app_l.
  rewrite bool_decide_eq_true_2 by done.
  destruct (_ <=? _)%nat eqn:Hle; [done|].
  apply Nat.leb_gt in Hle. lia.
Qed.

Lemma last_element_acc backwards acc :
  exists pre, filepath.last_element backwards acc = (pre ++ acc)%list.
Proof.
  revert acc. induction backwards as [|c more IH]; intros acc; simpl.
  - by exists [].
  - destruct (filepath.IsPathSeparator c); [by exists []|].
    destruct (IH (c :: acc)) as [pre Hpre]. exists (pre ++ [c])%list.
    by rewrite Hpre, <- app_assoc.
Qed.

(** The extension [Ext] finds is the end of the element [Base] finds. *)
Lemma ext_scan_last_element before after :
  filepath.ext_scan before after = []
  \/ exists pre, filepath.last_element before after
                 = (pre ++ filepath.ext_scan before after)%list.
Proof.
  revert after. induction before as [|c more IH]; intros after; simpl; [by left|].
  destruct (filepath.IsPathSeparator c); [by left|].
  destruct (bool_decide (c = "."%char)).
  - right. apply last_element_acc.
  - apply IH.
Qed.

(** X10. Lines 326-329 cut the base name of a path in two parts that
    make it up again: [noSuffix + ext = base], for every path. *)
Theorem noSuffix_ext_base (writePath : string) :
  strings.TrimSuffix (filepath.Base writePath) (filepath.Ext writePath)
  +:+ filepath.Ext writePath
  = filepath.Base writePath.
Proof.
  assert (forall s, strings.TrimSuffix s "" +:+ "" = s) as Hnil.
  { intros s. pose proof (TrimSuffix_app s "") as H.
    assert (s +:+ "" = s) as Hs.
    { clear H. induction s as [|c s IH]; [done|].
      change (String c s +:+ "") with (String c (s +:+ "")). by rewrite IH. }
    rewrite Hs in H. by rewrite H. }
  unfold filepath.Ext, filepath.Base.
  destruct (rev (list_ascii_of_string writePath)) as [|c before] eqn:Hrev.
  { simpl. apply Hnil. }
  assert (writePath <> "") as Hne by (by intros ->).
  rewrite bool_decide_eq_false_2 by done.
  destruct (filepath.IsPathSeparator c) eqn:Hc.
  { simpl filepath.ext_scan. rewrite Hc. simpl. apply Hnil. }
  assert (filepath.strip_trailing (c :: before) = c :: before) as ->
    by (simpl; by rewrite Hc).
  destruct (ext_scan_last_element (c :: before) []) as [->|[pre Hpre]].
  { simpl string_of_list_ascii. apply Hnil. }
  rewrite Hpre.
  destruct (filepath.ext_scan (c :: before) []) as [|d ext] eqn:Hext.
  { simpl string_of_list_ascii. apply Hnil. }
  rewrite bool_decide_eq_false_2 by (by destruct pre).
  rewrite string_of_list_ascii_app. by rewrite TrimSuffix_app.
Qed.

(** *** The search request *)

(** The address [sendQuery] asks: the query between quotes, escaped. *)
Definition requestUri (E : Env) (queryStr : string) : string :=
  "https://api.datamarket.azure.com/Bing/Search/Image?$format=json&Query="
  +:+ url_QueryEscape E ("'" +:+ queryStr +:+ "'").

(** X11. [Request] returns descriptors exactly when the request could be
    built, the exchange with the server returned a response, whatever its
    status code, the body of the response could be read to its end, and
    the decoder accepted it; the descriptors are then the results the
    decoder found. *)
Theorem Requester_Request_succeeds_iff E queryStr accountKey results :
  Requester_Request E queryStr accountKey = inl results
  <-> exists resp parsed,
        http_NewRequest E (requestUri E queryStr) = None
        /\ client_Do E (requestUri E queryStr) accountKey = inl resp
        /\ rc_err (Body resp) = None
        /\ json_Unmarshal E (rc_data (Body resp)) = (parsed, None)
        /\ results = Results (D parsed).
Proof.
  unfold Requester_Request, sendQuery, createNewRequest, getPairs, ioutil.ReadAll.
  change (_ +:+ "?" +:+ String.concat "&" _) with (requestUri E queryStr).
  split.
  - intros H.
    destruct (http_NewRequest E _) as [e|] eqn:Hnew; [done|].
    destruct (client_Do E _ _) as [resp|e] eqn:Hdo; [|done].
    destruct (rc_err (Body resp)) as [e|] eqn:Hread; [done|].
    destruct (json_Unmarshal E _) as [parsed [e|]] eqn:Hjson; [done|].
    exists resp, parsed. by simplify_eq.
  - intros (resp & parsed & -> & -> & -> & -> & ->). done.
Qed.

(** ** Part 6. More on the runs of the pipeline *)

(** *** What [main] receives *)

Definition requester_records (s : State) : Z := countb (from "Requester") (observed s).
Definition spawner_records (s : State) : Z := countb (from "Spawner") (observed s).
Definition writer_records (s : State) : Z := countb (from "Writer") (observed s).

(** The replies [main] has received, by the goroutines that are past
    their send; and where a goroutine stands when the process crashed. *)
Record Records (s : State) : Prop := {
  rec_requester :
    requester_records s = match req s with ReqDone => 1%Z | _ => 0%Z end;
  rec_spawner :
    spawner_records s = match spa s with SpaDone => 1%Z | _ => 0%Z end;
  rec_writer :
    writer_records s = match wri s with WriCloseSup | WriDone => 1%Z | _ => 0%Z end;
  rec_length :
    Z.of_nat (length (observed s))
    = (requester_records s + spawner_records s + writer_records s + getter_records s)%Z;
  rec_crashed :
    crashed s = true ->
    match req s, spa s with
    | ReqReply _, _ | _, SpaReply => True
    | _, _ => False
    end;
}.

Lemma Records_initial fs : Records (initial fs).
Proof. by split. Qed.

Ltac records_split :=
  split; simpl in *;
  unfold requester_records, spawner_records, writer_records, getter_records in *;
  simpl in *;
  rewrite ?countb_app, ?countb_singleton, ?from_deferred_reply, ?length_app; simpl;
  eval_bool_decide; simpl.

Lemma step_Records E cfg a s s' :
  Inv cfg s -> Records s -> step E cfg a s = Some s' -> Records s'.
Proof.
  unfold step, halted. intros Hinv Hrec Hstep.
  destruct s as [rq sp wr mn gs pr w c cp cg co fs obs cr]; simpl in *.
  destruct cr; [done|]. destruct mn; [|done]. simpl in Hstep.
  destruct a as [| |i| |].
  - unfold step_requester, send_reply in Hstep; simpl in Hstep.
    repeat case_match; simplify_eq/=; destruct Hrec; records_split;
      try done; try lia; try (by destruct sp).
  - unfold step_spawner, send_reply in Hstep; simpl in Hstep.
    destruct Hinv as [_ _ _ _ Hstart _ _ _ _ _ _ _]; simpl in *.
    repeat case_match; simplify_eq/=; destruct Hrec; records_split;
      try done; try lia; try (by destruct rq).
    destruct Hstart as [_ ->]. done.
  - unfold step_getter, send_reply, set_gpc in Hstep; simpl in Hstep.
    destruct (gs !! i) as [g|] eqn:Hg; [|done].
    pose proof (countb_lookup (fun g => undone (gpc g)) _ _ _ Hg) as Hgu.
    pose proof (countb_nonneg (fun g => undone (gpc g)) gs) as Hnn.
    destruct Hinv as [_ _ Hwg _ _ Hbox Hwaited Hwriter Hsup _ _ _]; simpl in *.
    repeat case_match; simplify_eq/=; destruct Hrec; records_split;
      try done; try lia.
  - unfold step_writer, send_reply in Hstep; simpl in Hstep.
    destruct Hinv as [_ _ _ _ _ _ _ _ Hsup _ _ _]; simpl in *.
    repeat case_match; simplify_eq/=; destruct Hrec; records_split;
      try done; try lia.
  - unfold step_main in Hstep; simpl in Hstep.
    repeat case_match; simplify_eq/=; destruct Hrec; records_split; try done; try lia.
Qed.

Lemma run_Records E cfg fs sched s :
  run E cfg sched (initial fs) = Some s -> Inv cfg s /\ Records s.
Proof.
  apply (run_invariant E cfg (fun s => Inv cfg s /\ Records s) sched (initial fs));
    [|split; [apply Inv_initial|apply Records_initial]].
  intros a s1 s2 [H1 H2] Hstep. split; [by eapply step_Inv|by eapply step_Records].
Qed.

(** When the process is over the Writer has closed the channel of
    [main]. *)
Lemma halted_writer_done cfg s :
  Inv cfg s -> halted s = true -> wri s = WriDone /\ closed_opStatus s = true.
Proof.
  intros [_ _ _ _ _ _ _ _ Hsup Hcrashed Hret _] Hhalt.
  assert (closed_opStatus s = true) as Hco.
  { unfold halted in Hhalt. apply orb_prop in Hhalt as [?|Hm]; [auto|].
    destruct (mainpc s) eqn:?; [done|auto]. }
  split; [|done]. rewrite Hco in Hsup. by destruct (wri s).
Qed.

(** X12. [main] receives at most one reply from the Requester, one from the
    Spawner and one from the Writer, no more replies of Getters than
    Getters were launched, and nothing else. *)
Theorem one_reply_each E cfg fs sched s :
  run E cfg sched (initial fs) = Some s ->
  (requester_records s <= 1)%Z /\ (spawner_records s <= 1)%Z
  /\ (writer_records s <= 1)%Z
  /\ (getter_records s <= Z.of_nat (length (getters s)))%Z
  /\ Z.of_nat (length (observed s))
     = (requester_records s + spawner_records s + writer_records s
        + getter_records s)%Z.
Proof.
  intros Hrun. destruct (run_Records E cfg fs sched s Hrun) as [Hinv [HR HS HW HL _]].
  destruct Hinv as [_ _ _ Hrec _ _ _ _ _ _ _ _].
  rewrite HR, HS, HW in *.
  split; [by destruct (req s)|]. split; [by destruct (spa s)|].
  split; [by destruct (wri s)|]. split; [|done].
  rewrite Hrec. apply countb_le_length.
Qed.

Lemma one_reply_each_witness :
  exists s,
    run (quiet [pic_a; pic_b] served) (flags 1) one_by_one (initial ∅) = Some s
    /\ (requester_records s <= 1)%Z /\ (spawner_records s <= 1)%Z
    /\ (writer_records s <= 1)%Z
    /\ (getter_records s <= Z.of_nat (length (getters s)))%Z
    /\ Z.of_nat (length (observed s))
       = (requester_records s + spawner_records s + writer_records s
          + getter_records s)%Z.
Proof.
  eexists. split; [vm_compute; reflexivity|].
  apply (one_reply_each (quiet [pic_a; pic_b] served) (flags 1) ∅ one_by_one).
  vm_compute; reflexivity.
Defined.

(** X13. When the process is over after a search that returned N
    descriptors, [main] has received the reply of the Writer and the
    replies of all N Getters; the replies of the Requester and of the
    Spawner may be missing: between N + 1 and N + 3 replies in all. *)
Theorem records_at_exit E cfg fs results sched s :
  Requester_Request E (query cfg) (accKey cfg) = inl results ->
  run E cfg sched (initial fs) = Some s ->
  halted s = true ->
  writer_records s = 1%Z
  /\ getter_records s = Z.of_nat (length results)
  /\ (Z.of_nat (length results) + 1 <= Z.of_nat (length (observed s))
      <= Z.of_nat (length results) + 3)%Z.
Proof.
  intros Hrequest Hrun Hhalt.
  destruct (run_Records E cfg fs sched s Hrun) as [Hinv [HR HS HW HL _]].
  pose proof (run_InvReq _ _ _ _ _ _ Hrequest Hrun) as Hreq.
  destruct (halted_getter_records cfg results s Hinv Hreq Hhalt) as [HG _].
  destruct (halted_writer_done cfg s Hinv Hhalt) as [Hwri _].
  rewrite Hwri in HW. rewrite HL, HR, HS, HW, HG.
  split; [done|]. split; [done|]. destruct (req s), (spa s); lia.
Qed.

Lemma records_at_exit_witness :
  exists s,
    run (quiet [pic_a; pic_b] served) (flags 1) one_by_one (initial ∅) = Some s
    /\ writer_records s = 1%Z
    /\ getter_records s = Z.of_nat (length [pic_a; pic_b])
    /\ (Z.of_nat (length [pic_a; pic_b]) + 1 <= Z.of_nat (length (observed s))
        <= Z.of_nat (length [pic_a; pic_b]) + 3)%Z.
Proof.
  eexists. split; [vm_compute; reflexivity|].
  apply (records_at_exit (quiet [pic_a; pic_b] served) (flags 1) ∅ [pic_a; pic_b]
           one_by_one); vm_compute; reflexivity.
Defined.

(** X14. The process crashes in one way only: the Writer has closed the
    channel of [main], and the Requester or the Spawner then sends its
    reply on it. No Getter and no Writer ever sends on the closed channel. *)
Theorem crash_only_by_late_reply E cfg fs sched s :
  run E cfg sched (initial fs) = Some s ->
  crashed s = true ->
  wri s = WriDone /\ closed_opStatus s = true
  /\ ((exists rec, req s = ReqReply rec) \/ spa s = SpaReply)
  /\ Forall (fun g => replied (gpc g) = true) (getters s).
Proof.
  intros Hrun Hcrashed.
  destruct (run_Records E cfg fs sched s Hrun) as [Hinv [_ _ _ _ HC]].
  assert (halted s = true) as Hhalt by (unfold halted; by rewrite Hcrashed).
  destruct (halted_writer_done cfg s Hinv Hhalt) as [Hwri Hco].
  split; [done|]. split; [done|]. split.
  - specialize (HC Hcrashed). destruct (req s), (spa s); try done; eauto.
  - destruct Hinv as [_ _ Hwg _ _ Hbox Hwaited Hwriter _ _ _ _].
    rewrite Hwri in Hwriter. rewrite Hwriter in Hbox.
    assert (countb (fun g => undone (gpc g)) (getters s) = 0%Z) as Hzero.
    { pose proof (countb_nonneg (fun g => undone (gpc g)) (getters s)).
      destruct (spa s); simpl in *; try done; lia. }
    apply Forall_lookup. intros i g Hg.
    pose proof (countb_lookup (fun g => undone (gpc g)) _ _ _ Hg) as Hle.
    rewrite Hzero in Hle. destruct (gpc g); simpl in *; try done; lia.
Qed.

Lemma crash_only_by_late_reply_witness :
  exists s,
    run (quiet [] served) (flags 1) (writer_first ++ [ActSpawner]) (initial ∅) = Some s
    /\ wri s = WriDone /\ closed_opStatus s = true
    /\ ((exists rec, req s = ReqReply rec) \/ spa s = SpaReply)
    /\ Forall (fun g => replied (gpc g) = true) (getters s).
Proof.
  eexists. split; [vm_compute; reflexivity|].
  apply (crash_only_by_late_reply (quiet [] served) (flags 1) ∅
           (writer_first ++ [ActSpawner])); vm_compute; reflexivity.
Defined.

(** X15. After a search that succeeded the pipeline never deadlocks: in
    every state of every run, no goroutine can take a step exactly when
    the process is over ([main] has returned, or a panic has ended it). *)
Theorem no_deadlock E cfg fs results sched s :
  Requester_Request E (query cfg) (accKey cfg) = inl results ->
  run E cfg sched (initial fs) = Some s ->
  stuck E cfg s <-> halted s = true.
Proof.
  intros Hrequest Hrun. split.
  - intros Hstuck. destruct (halted s) eqn:Hhalt; [done|].
    pose proof (run_Inv _ _ _ _ _ Hrun) as Hinv.
    pose proof (run_InvReq _ _ _ _ _ _ Hrequest Hrun) as Hreq.
    destruct (progress E cfg results s Hrequest Hinv Hreq Hhalt) as [a [s' Hs']].
    rewrite Hstuck in Hs'. done.
  - intros Hhalt a. unfold step. by rewrite Hhalt.
Qed.

Lemma no_deadlock_witness :
  exists s,
    run (quiet [pic_a; pic_b] served) (flags 1) one_by_one (initial ∅) = Some s
    /\ (stuck (quiet [pic_a; pic_b] served) (flags 1) s <-> halted s = true).
Proof.
  eexists. split; [vm_compute; reflexivity|].
  apply (no_deadlock (quiet [pic_a; pic_b] served) (flags 1) ∅ [pic_a; pic_b]
           one_by_one); vm_compute; reflexivity.
Defined.

(** *** No run goes on for ever *)

(** X16. Every run ends, whatever the budget, the scheduler and the
    outside world: after a search that returned N descriptors no run has
    more than 9 N + 18 steps, and after a search that failed no run has
    more than 3. *)
Theorem every_run_is_bounded E cfg fs sched s :
  run E cfg sched (initial fs) = Some s ->
  (Z.of_nat (length sched)
   <= match Requester_Request E (query cfg) (accKey cfg) with
      | inl results => 9 * Z.of_nat (length results) + 18
      | inr _ => 3
      end)%Z.
Proof.
  intros Hrun.
  destruct (Requester_Request E (query cfg) (accKey cfg)) as [results|err] eqn:Hrequest.
  - pose proof (run_steps_left _ _ _ _ _ Hrun) as Hleft.
    pose proof (steps_left_nonneg E cfg s).
    unfold steps_left in Hleft at 2. simpl in Hleft. rewrite Hrequest in Hleft. lia.
  - destruct (run_FailedSearch E cfg err sched (initial fs) s Hrequest
                (FailedSearch_initial err fs) Hrun) as [_ Hleft].
    assert (0 <= failed_search_left s)%Z as Hnonneg.
    { unfold failed_search_left. destruct (req s), (spa s); lia. }
    unfold failed_search_left in Hleft at 2. simpl in Hleft. lia.
Qed.

Lemma every_run_is_bounded_witness :
  (Z.of_nat (length nobody_listens)
   <= match Requester_Request (quiet [pic_a] served) (query (flags 2))
              (accKey (flags 2)) with
      | inl results => 9 * Z.of_nat (length results) + 18
      | inr _ => 3
      end)%Z.
Proof.
  eapply (every_run_is_bounded (quiet [pic_a] served) (flags 2) ∅ nobody_listens).
  vm_compute. reflexivity.
Defined.

(** *** What the Requester reports *)











(** *** The Getters that are left behind *)

(** The Getter is at its send to the probe channel, line 241. *)
Definition on_probe (pc : GetterPc) : bool :=
  match pc with GetProbe => true | _ => false end.

Definition exited (pc : GetterPc) : bool :=
  match pc with GetExit => true | _ => false end.

(** [currentRoutines] by the number of Getters launched: the Spawner
    receives from the probe channel only when the count has reached the
    budget, so the count grows with the launches up to the budget less one
    and stays there. *)
Definition Slots (cfg : Config) (s : State) : Prop :=
  match spa s with
  | SpaProbe => currentRoutines s = window cfg
  | _ => currentRoutines s
         = Z.min (Z.of_nat (length (getters s))) (window cfg - 1)
  end.

Lemma Slots_initial cfg fs : Slots cfg (initial fs).
Proof. unfold Slots, window. simpl. lia. Qed.

Lemma step_Slots E cfg a s s' :
  Inv cfg s -> Slots cfg s -> step E cfg a s = Some s' -> Slots cfg s'.
Proof.
  unfold step, halted, Slots. intros Hinv Hslots Hstep.
  pose proof (countb_le_length (fun g => live (gpc g)) (getters s)) as Hle.
  destruct Hinv as [Hlive _ _ _ _ _ _ _ _ _ _ _]. unfold live_getters in Hlive.
  destruct s as [rq sp wr mn gs pr w c cp cg co fs obs cr]; simpl in *.
  destruct cr; [done|]. destruct mn; [|done]. simpl in Hstep.
  destruct a as [| |i| |].
  - unfold step_requester, send_reply in Hstep; simpl in Hstep.
    repeat case_match; simplify_eq/=; try done.
  - unfold step_spawner, send_reply in Hstep; simpl in Hstep.
    unfold window in *.
    repeat case_match; simplify_eq/=; rewrite ?length_app; simpl; try done; lia.
  - unfold step_getter, send_reply, set_gpc in Hstep; simpl in Hstep.
    unfold window in *.
    repeat case_match; simplify_eq/=; rewrite ?length_alter; try done; lia.
  - unfold step_writer, send_reply in Hstep; simpl in Hstep.
    repeat case_match; simplify_eq/=; try done.
  - unfold step_main in Hstep; simpl in Hstep.
    repeat case_match; simplify_eq/=; try done.
Qed.

Lemma run_Slots E cfg fs sched s :
  run E cfg sched (initial fs) = Some s -> Inv cfg s /\ Slots cfg s.
Proof.
  apply (run_invariant E cfg (fun s => Inv cfg s /\ Slots cfg s) sched (initial fs));
    [|split; [apply Inv_initial|apply Slots_initial]].
  intros a s1 s2 [H1 H2] Hstep. split; [by eapply step_Inv|by eapply step_Slots].
Qed.

Lemma countb_split {A} (f g h : A -> bool) l :
  (forall x, b2z (f x) = (b2z (g x) + b2z (h x))%Z) ->
  countb f l = (countb g l + countb h l)%Z.
Proof.
  intros Hsplit. induction l as [|x l IH]; unfold countb in *; simpl; [done|].
  rewrite IH, Hsplit. lia.
Qed.

Lemma length_countb {A} (f g : A -> bool) l :
  (forall x, (b2z (f x) + b2z (g x))%Z = 1%Z) ->
  Z.of_nat (length l) = (countb f l + countb g l)%Z.
Proof.
  intros Hsplit. induction l as [|x l IH]; unfold countb in *; simpl length; simpl sumz;
    [done|].
  specialize (Hsplit x). lia.
Qed.

(** Once the Spawner has passed [wg.Wait], every Getter has called
    [wg.Done]. *)
Lemma waited_all_done cfg s :
  Inv cfg s -> closed_getAndWrite s = true ->
  countb (fun g => undone (gpc g)) (getters s) = 0%Z.
Proof.
  intros [_ _ Hwg _ _ Hbox Hwaited _ _ _ _ _] Hclosed.
  pose proof (countb_nonneg (fun g => undone (gpc g)) (getters s)).
  rewrite Hclosed in Hbox. destruct (spa s); simpl in *; try done; lia.
Qed.

(** X19. How many Getters never end. When the process is over after a
    search that returned N descriptors, with budget b (a budget below 1
    counting as 1), exactly min(N, b - 1) Getters are still at their send
    to the probe channel, which nobody will receive, and the other Getters
    have returned. With a budget of 1 every Getter returns. *)
Theorem getters_left_on_probe E cfg fs results sched s :
  Requester_Request E (query cfg) (accKey cfg) = inl results ->
  run E cfg sched (initial fs) = Some s ->
  halted s = true ->
  countb (fun g => on_probe (gpc g)) (getters s)
  = Z.min (Z.of_nat (length results)) (Z.max (maxRoutines cfg) 1 - 1)
  /\ countb (fun g => exited (gpc g)) (getters s)
     = (Z.of_nat (length results)
        - Z.min (Z.of_nat (length results)) (Z.max (maxRoutines cfg) 1 - 1))%Z.
Proof.
  intros Hrequest Hrun Hhalt.
  destruct (run_Slots E cfg fs sched s Hrun) as [Hinv Hslots].
  pose proof (run_InvReq _ _ _ _ _ _ Hrequest Hrun) as Hreq.
  destruct (halted_getter_records cfg results s Hinv Hreq Hhalt) as [_ Hlen].
  assert (closed_getAndWrite s = true) as Hclosed.
  { destruct Hinv as [_ _ _ _ _ _ _ Hwriter Hsup Hcrashed Hret _].
    assert (closed_opStatus s = true) as Hco.
    { unfold halted in Hhalt. apply orb_prop in Hhalt as [?|Hm]; [auto|].
      destruct (mainpc s) eqn:?; [done|auto]. }
    rewrite Hco in Hsup. by destruct (wri s). }
  pose proof (waited_all_done cfg s Hinv Hclosed) as Hundone.
  assert (countb (fun g => live (gpc g)) (getters s)
          = (countb (fun g => undone (gpc g)) (getters s)
             + countb (fun g => on_probe (gpc g)) (getters s))%Z) as Hlive.
  { apply countb_split. intros g. by destruct (gpc g). }
  assert (Z.of_nat (length (getters s))
          = (countb (fun g => live (gpc g)) (getters s)
             + countb (fun g => exited (gpc g)) (getters s))%Z) as Hall.
  { apply length_countb. intros g. by destruct (gpc g). }
  destruct Hinv as [Hc _ _ _ _ Hbox _ _ _ _ _ _]. unfold live_getters in Hc.
  rewrite Hclosed in Hbox. unfold Slots, window in Hslots.
  destruct (spa s); simpl in *; try done; lia.
Qed.

Lemma getters_left_on_probe_witness :
  exists s,
    run (quiet [pic_a] served) (flags 2) nobody_listens (initial ∅) = Some s
    /\ countb (fun g => on_probe (gpc g)) (getters s)
       = Z.min (Z.of_nat (length [pic_a])) (Z.max (maxRoutines (flags 2)) 1 - 1)
    /\ countb (fun g => exited (gpc g)) (getters s)
       = (Z.of_nat (length [pic_a])
          - Z.min (Z.of_nat (length [pic_a])) (Z.max (maxRoutines (flags 2)) 1 - 1))%Z.
Proof.
  eexists. split; [vm_compute; reflexivity|].
  apply (getters_left_on_probe (quiet [pic_a] served) (flags 2) ∅ [pic_a]
           nobody_listens); vm_compute; reflexivity.
Defined.

(** X20. The WaitGroup counter is the Spawner's own count, held from line
    192 to line 214, plus the Getters that have not called [wg.Done]: it is
    never negative, and the content channel is closed only when every
    Getter has posted and called [wg.Done], so that no Getter sends on the
    closed channel. *)
Theorem waitgroup_counts_getters E cfg fs sched s :
  run E cfg sched (initial fs) = Some s ->
  wg s = (guard (spa s) + countb (fun g => undone (gpc g)) (getters s))%Z
  /\ (0 <= wg s)%Z
  /\ (closed_getAndWrite s = true ->
      Forall (fun g => undone (gpc g) = false) (getters s)).
Proof.
  intros Hrun. pose proof (run_Inv _ _ _ _ _ Hrun) as Hinv.
  pose proof (countb_nonneg (fun g => undone (gpc g)) (getters s)) as Hnn.
  split; [by destruct Hinv|]. split.
  - destruct Hinv as [_ _ Hwg _ _ _ _ _ _ _ _ _]. rewrite Hwg.
    destruct (spa s); simpl; lia.
  - intros Hclosed. pose proof (waited_all_done cfg s Hinv Hclosed) as Hzero.
    apply Forall_lookup. intros i g Hg.
    pose proof (countb_lookup (fun g => undone (gpc g)) _ _ _ Hg) as Hle.
    rewrite Hzero in Hle. destruct (undone (gpc g)); simpl in *; [lia|done].
Qed.

Lemma waitgroup_counts_getters_witness :
  exists s,
    run (quiet [pic_a] served) (flags 2) nobody_listens (initial ∅) = Some s
    /\ wg s = (guard (spa s) + countb (fun g => undone (gpc g)) (getters s))%Z
    /\ (0 <= wg s)%Z
    /\ (closed_getAndWrite s = true ->
        Forall (fun g => undone (gpc g) = false) (getters s)).
Proof.
  eexists. split; [vm_compute; reflexivity|].
  apply (waitgroup_counts_getters (quiet [pic_a] served) (flags 2) ∅ nobody_listens).
  vm_compute; reflexivity.
Defined.

(** *** The order of the replies *)

(** The reply is not the Spawner's and not the Writer's. *)
Definition early (r : OperationReply) : Prop :=
  ObjType r <> "Spawner" /\ ObjType r <> "Writer".

(** No reply of a Getter comes after the reply of the Spawner or of the
    Writer. *)
Definition getters_first (obs : list OperationReply) : Prop :=
  forall pre r post,
    obs = (pre ++ r :: post)%list -> ObjType r = "Getter" -> Forall early pre.

Record Order (s : State) : Prop := {
  ord_first : getters_first (observed s);
  ord_early : Forall early (observed s) \/ closed_getAndWrite s = true;
}.

Lemma Order_initial fs : Order (initial fs).
Proof.
  split; simpl; [|left; constructor].
  intros pre r post Hobs. by destruct pre.
Qed.

Lemma getters_first_snoc obs r' :
  getters_first obs ->
  (ObjType r' = "Getter" -> Forall early obs) ->
  getters_first (obs ++ [r'])%list.
Proof.
  intros Hfirst Hlast pre r post Hobs Hr.
  destruct post as [|x post _] using rev_ind.
  - apply (app_inj_tail obs pre r' r) in Hobs as [-> ->]. auto.
  - rewrite app_comm_cons, app_assoc in Hobs.
    apply app_inj_tail in Hobs as [-> ->]. by eapply Hfirst.
Qed.

Lemma step_Order E cfg a s s' :
  Inv cfg s -> Order s -> step E cfg a s = Some s' -> Order s'.
Proof.
  unfold step, halted. intros Hinv [Hfirst Hearly] Hstep.
  destruct s as [rq sp wr mn gs pr w c cp cg co fs obs cr]; simpl in *.
  destruct cr; [done|]. destruct mn; [|done]. simpl in Hstep.
  assert (forall r', ObjType r' <> "Getter" -> early r' ->
            Order {| req := rq; spa := sp; wri := wr; mainpc := MainRecv; getters := gs;
                     pair := pr; wg := w; currentRoutines := c; closed_chanPair := cp;
                     closed_getAndWrite := cg; closed_opStatus := co; files := fs;
                     observed := (obs ++ [r'])%list; crashed := false |}) as Hquiet.
  { intros r' Hr' He. split; simpl.
    - by apply getters_first_snoc.
    - destruct Hearly as [Hearly|Hearly]; [left|by right].
      apply Forall_app; split; [done|]. by constructor. }
  destruct a as [| |i| |].
  - unfold step_requester, send_reply in Hstep; simpl in Hstep.
    repeat case_match; simplify_eq/=; try (by split).
    destruct (Hquiet (deferred_reply "Requester" rec)) as [H1 H2];
      [by rewrite ObjType_deferred_reply
      |by split; rewrite ObjType_deferred_reply|by split].
  - unfold step_spawner, send_reply in Hstep; simpl in Hstep.
    destruct Hinv as [_ _ _ _ _ Hbox _ _ _ _ _ _]; simpl in *.
    repeat case_match; simplify_eq/=; try (by split); try (by split; [|right]).
    split; simpl; [|by right]. by apply getters_first_snoc.
  - unfold step_getter, send_reply, set_gpc in Hstep; simpl in Hstep.
    destruct (gs !! i) as [g|] eqn:Hg; [|done].
    pose proof (countb_lookup (fun g => undone (gpc g)) _ _ _ Hg) as Hgu.
    pose proof (countb_nonneg (fun g => undone (gpc g)) gs) as Hnn.
    destruct Hinv as [_ _ Hwg _ _ Hbox Hwaited _ _ _ _ _]; simpl in *.
    repeat case_match; simplify_eq/=; try (by split).
    all: try (exfalso; simpl in *; lia).
    all: destruct Hearly as [Hearly|?]; [|done].
    all: split; simpl; [by apply getters_first_snoc|].
    all: left; apply Forall_app; split; [done|]; constructor; [|done].
    all: by split; rewrite ObjType_deferred_reply.
  - unfold step_writer, send_reply in Hstep; simpl in Hstep.
    destruct Hinv as [_ _ _ _ _ _ _ Hwriter _ _ _ _]; simpl in *.
    repeat case_match; simplify_eq/=; try (by split).
    split; simpl; [|by right]. by apply getters_first_snoc.
  - unfold step_main in Hstep; simpl in Hstep.
    repeat case_match; simplify_eq/=; by split.
Qed.

Lemma run_Order E cfg fs sched s :
  run E cfg sched (initial fs) = Some s -> Inv cfg s /\ Order s.
Proof.
  apply (run_invariant E cfg (fun s => Inv cfg s /\ Order s) sched (initial fs));
    [|split; [apply Inv_initial|apply Order_initial]].
  intros a s1 s2 [H1 H2] Hstep. split; [by eapply step_Inv|by eapply step_Order].
Qed.

(** X21. The replies of the Getters come first: whenever [main] receives
    the reply of a Getter, it has received neither the reply of the
    Spawner nor that of the Writer. *)
Theorem getter_replies_come_first E cfg fs sched s pre r post :
  run E cfg sched (initial fs) = Some s ->
  observed s = (pre ++ r :: post)%list ->
  ObjType r = "Getter" ->
  Forall (fun r' => ObjType r' <> "Spawner" /\ ObjType r' <> "Writer") pre.
Proof.
  intros Hrun Hobs Hr. destruct (run_Order E cfg fs sched s Hrun) as [_ [Hfirst _]].
  by eapply Hfirst.
Qed.

Lemma getter_replies_come_first_witness :
  Forall (fun r' => ObjType r' <> "Spawner" /\ ObjType r' <> "Writer")
    [deferred_reply "Getter" None].
Proof.
  eapply (getter_replies_come_first (quiet [pic_a; pic_b] served) (flags 1) ∅ one_by_one
            _ [deferred_reply "Getter" None] (deferred_reply "Getter" None)
            [deferred_reply "Requester" None; deferred_reply "Spawner" None;
             deferred_reply "Writer" None]).
  - vm_compute; reflexivity.
  - reflexivity.
  - reflexivity.
Defined.

(** *** The files of a run *)

(** The Getter is past its send to the Writer. *)
Definition past_post (pc : GetterPc) : bool :=
  match pc with GetCall | GetPost _ => false | _ => true end.

(** The files that were there are kept, and every new file is the
    picture of one Getter. *)
Record Files (fs0 : FileSystem) (s : State) : Prop := {
  files_kept : forall p v, fs0 !! p = Some v -> files s !! p = Some v;
  files_size :
    (Z.of_nat (size (files s)) + match wri s with WriWrite _ => 1 | _ => 0 end
     <= Z.of_nat (size fs0) + countb (fun g => past_post (gpc g)) (getters s))%Z;
}.

Lemma Files_initial fs : Files fs (initial fs).
Proof. split; simpl; [done|]. unfold countb. simpl. lia. Qed.

Lemma step_Files E cfg fs0 a s s' :
  Files fs0 s -> step E cfg a s = Some s' -> Files fs0 s'.
Proof.
  unfold step, halted. intros [Hkept Hsize] Hstep.
  destruct s as [rq sp wr mn gs pr w c cp cg co fs obs cr]; simpl in *.
  destruct cr; [done|]. destruct mn; [|done]. simpl in Hstep.
  destruct a as [| |i| |].
  - unfold step_requester, send_reply in Hstep; simpl in Hstep.
    repeat case_match; simplify_eq/=; by split.
  - unfold step_spawner, send_reply in Hstep; simpl in Hstep.
    repeat case_match; simplify_eq/=; split; simpl; try done;
      rewrite ?countb_app, ?countb_singleton; simpl; lia.
  - unfold step_getter, send_reply, set_gpc in Hstep; simpl in Hstep.
    destruct (gs !! i) as [g|] eqn:Hg; [|done].
    repeat case_match; simplify_eq/=; split; simpl; try done;
      rewrite ?(countb_alter _ _ _ _ _ Hg); simpl;
      repeat match goal with H : gpc g = _ |- _ => rewrite ?H in * end; simpl in *; lia.
  - unfold step_writer, send_reply in Hstep; simpl in Hstep.
    destruct wr; simpl in *; repeat case_match; simplify_eq/=; try (by split).
    match goal with
    | H : Writer_Write ?E ?d ?n ?rc ?fs = _ |- _ =>
        pose proof (Writer_Write_size E d n rc fs) as Hs;
        pose proof (fun p v => Writer_Write_lookup E d n rc fs p v) as Hl;
        rewrite H in Hs, Hl
    end.
    split; simpl in *; [auto|lia].
  - unfold step_main in Hstep; simpl in Hstep.
    repeat case_match; simplify_eq/=; by split.
Qed.

Lemma run_Files E cfg fs sched s :
  run E cfg sched (initial fs) = Some s -> Files fs s.
Proof.
  apply (run_invariant E cfg (Files fs)); [|apply Files_initial].
  intros ???. apply step_Files.
Qed.

(** X22. A run never overwrites, truncates or removes a file: every file
    that exists when the run starts exists with the same content in every
    state of the run. And a run creates at most one file for each Getter
    it has launched. *)
Theorem run_keeps_files E cfg fs sched s :
  run E cfg sched (initial fs) = Some s ->
  (forall p v, fs !! p = Some v -> files s !! p = Some v)
  /\ (size (files s) <= size fs + length (getters s))%nat.
Proof.
  intros Hrun. destruct (run_Files E cfg fs sched s Hrun) as [Hkept Hsize].
  split; [done|].
  pose proof (countb_le_length (fun g => past_post (gpc g)) (getters s)).
  destruct (wri s); lia.
Qed.

Lemma run_keeps_files_witness :
  exists s,
    run (quiet [pic_a] served) (flags 1) one_fetch (initial two_foos) = Some s
    /\ (forall p v, two_foos !! p = Some v -> files s !! p = Some v)
    /\ (size (files s) <= size two_foos + length (getters s))%nat.
Proof.
  eexists. split; [vm_compute; reflexivity|].
  apply (run_keeps_files (quiet [pic_a] served) (flags 1) two_foos one_fetch).
  vm_compute; reflexivity.
Defined.

(** *** Which descriptor a Getter is bound to *)













(** ** Part 7. The test of [validFilenameMaker] *)

(** The loops of lines 422-424 and 432-434: [todo] iterations are left
    and the next index is [i]. The errors of [os.Create] and of
    [os.Remove] are dropped, as the test drops them. *)
Fixpoint create_siblings (E : Env) (tmpdir : string) (todo : nat) (i : Z) : IO unit :=
  match todo with
  | O => mret tt
  | S todo' =>
      _ ← os.Create E (path.Join [tmpdir; Sprintf E "foo_%d.png" i]);
      create_siblings E tmpdir todo' (i + 1)%Z
  end.

Fixpoint remove_siblings (E : Env) (tmpdir : string) (todo : nat) (i : Z) : IO unit :=
  match todo with
  | O => mret tt
  | S todo' =>
      _ ← os.Remove (path.Join [tmpdir; Sprintf E "foo_%d.png" i]);
      remove_siblings E tmpdir todo' (i + 1)%Z
  end.

(** [TestValidFilenameMaker], with [tmpdir] for what [os.TempDir]
    returns; the result is the list of the messages given to [t.Error]. *)
Definition TestValidFilenameMaker (E : Env) (tmpdir : string) : IO (list string) :=
  '(validFile, err) ← validFilenameMaker E (path.Join [tmpdir; "foo.png"]);
  let failed1 :=
    negb (bool_decide (validFile = path.Join [tmpdir; "foo.png"]))
    || negb (bool_decide (err = None)) in
  _ ← os.Create E (path.Join [tmpdir; "foo.png"]);
  _ ← create_siblings E tmpdir (Z.to_nat maxIndices) 0%Z;
  '(validFile, err) ← validFilenameMaker E (path.Join [tmpdir; "foo.png"]);
  let failed2 :=
    negb (bool_decide (validFile = "")) || bool_decide (err = None) in
  _ ← os.Remove (path.Join [tmpdir; "foo.png"]);
  _ ← remove_siblings E tmpdir (Z.to_nat maxIndices) 0%Z;
  mret ((if failed1 then ["validFilenameMaker failed to validate."] else [])
        ++ (if failed2
            then ["validFilenameMaker failed to confirm an invalid filename."]
            else []))%list.

(** The [i]-th name the test creates and removes in [/tmp]. *)
Definition foo_sibling (E : Env) (i : Z) : string :=
  path.Join ["/tmp"; Sprintf E "foo_%d.png" i].

Lemma candidate_foo E i : candidate E "/tmp/foo.png" i = foo_sibling E i.
Proof. reflexivity. Qed.

Lemma create_siblings_S E todo i fs :
  (forall name, os_Create_fails E name = None) ->
  create_siblings E "/tmp" (S todo) i fs
  = create_siblings E "/tmp" todo (i + 1) (<[foo_sibling E i := ""]> fs).
Proof.
  intros Hcreate. cbn [create_siblings]. unfold mbind, IO_bind, os.Create.
  by rewrite Hcreate.
Qed.

Lemma create_siblings_files E todo i fs :
  (forall name, os_Create_fails E name = None) ->
  let fs' := (create_siblings E "/tmp" todo i fs).2 in
  (forall j, (j < todo)%nat -> is_Some (fs' !! foo_sibling E (i + Z.of_nat j)))
  /\ (forall p, is_Some (fs !! p) -> is_Some (fs' !! p))
  /\ (forall p, (forall j, (j < todo)%nat -> p <> foo_sibling E (i + Z.of_nat j)) ->
        fs' !! p = fs !! p).
Proof.
  intros Hcreate. revert i fs. induction todo as [|todo IH]; intros i fs.
  { simpl. split; [intros j Hj; lia|]. by split. }
  rewrite create_siblings_S by done.
  destruct (IH (i + 1)%Z (<[foo_sibling E i := ""]> fs)) as (Hnew & Hold & Hother).
  split; [|split].
  - intros [|j] Hj.
    + replace (i + Z.of_nat 0)%Z with i by lia. apply Hold.
      rewrite lookup_insert_eq. eauto.
    + replace (i + Z.of_nat (S j))%Z with (i + 1 + Z.of_nat j)%Z by lia.
      apply Hnew. lia.
  - intros p Hp. apply Hold.
    destruct (decide (p = foo_sibling E i)) as [->|Hne].
    + rewrite lookup_insert_eq. eauto.
    + by rewrite lookup_insert_ne.
  - intros p Hp. rewrite Hother.
    + rewrite lookup_insert_ne; [done|]. intros <-. apply (Hp O); [lia|].
      f_equal. lia.
    + intros j Hj. replace (i + 1 + Z.of_nat j)%Z with (i + Z.of_nat (S j))%Z by lia.
      apply Hp. lia.
Qed.

Lemma Remove_files name fs :
  (os.Remove name fs).2 = delete name fs.
Proof.
  unfold os.Remove. destruct (fs !! name) eqn:Hname; simpl; [done|].
  by rewrite delete_id.
Qed.

Lemma remove_siblings_S E todo i fs :
  remove_siblings E "/tmp" (S todo) i fs
  = remove_siblings E "/tmp" todo (i + 1) (delete (foo_sibling E i) fs).
Proof.
  cbn [remove_siblings]. unfold mbind, IO_bind. fold (foo_sibling E i).
  pose proof (Remove_files (foo_sibling E i) fs) as Hrm.
  destruct (os.Remove (foo_sibling E i) fs) as [e fs1]. simpl in Hrm. by subst fs1.
Qed.

Lemma remove_siblings_files E todo i fs :
  let fs' := (remove_siblings E "/tmp" todo i fs).2 in
  (forall j, (j < todo)%nat -> fs' !! foo_sibling E (i + Z.of_nat j) = None)
  /\ (forall p, fs !! p = None -> fs' !! p = None)
  /\ (forall p, (forall j, (j < todo)%nat -> p <> foo_sibling E (i + Z.of_nat j)) ->
        fs' !! p = fs !! p).
Proof.
  revert i fs. induction todo as [|todo IH]; intros i fs.
  { simpl. split; [intros j Hj; lia|]. by split. }
  rewrite remove_siblings_S.
  destruct (IH (i + 1)%Z (delete (foo_sibling E i) fs)) as (Hnew & Hold & Hother).
  split; [|split].
  - intros [|j] Hj.
    + replace (i + Z.of_nat 0)%Z with i by lia. apply Hold.
      by rewrite lookup_delete_eq.
    + replace (i + Z.of_nat (S j))%Z with (i + 1 + Z.of_nat j)%Z by lia.
      apply Hnew. lia.
  - intros p Hp. apply Hold.
    destruct (decide (p = foo_sibling E i)) as [->|Hne].
    + by rewrite lookup_delete_eq.
    + by rewrite lookup_delete_ne.
  - intros p Hp. rewrite Hother.
    + rewrite lookup_delete_ne; [done|]. intros <-. apply (Hp O); [lia|].
      f_equal. lia.
    + intros j Hj. replace (i + 1 + Z.of_nat j)%Z with (i + Z.of_nat (S j))%Z by lia.
      apply Hp. lia.
Qed.

(** X24. [TestValidFilenameMaker], run in [/tmp] where files can be
    created: it reports no error exactly when [/tmp/foo.png] does not
    exist before; its second check never fails; and it leaves the
    directory without [foo.png] and without the hundred names it
    created, whether they existed before or not, every other file being
    as it was. *)
Theorem TestValidFilenameMaker_passes E fs :
  (forall name, os_Create_fails E name = None) ->
  let '(errors, fs') := TestValidFilenameMaker E "/tmp" fs in
  (errors = [] <-> fs !! "/tmp/foo.png" = None)
  /\ ~ In "validFilenameMaker failed to confirm an invalid filename." errors
  /\ fs' !! "/tmp/foo.png" = None
  /\ (forall i, (0 <= i < maxIndices)%Z -> fs' !! foo_sibling E i = None)
  /\ (forall p, p <> "/tmp/foo.png" ->
        (forall i, (0 <= i < maxIndices)%Z -> p <> foo_sibling E i) ->
        fs' !! p = fs !! p).
Proof.
  intros Hcreate. unfold TestValidFilenameMaker.
  change (path.Join ["/tmp"; "foo.png"]) with "/tmp/foo.png".
  unfold mbind at 1, IO_bind at 1.
  pose proof (validFilenameMaker_result E "/tmp/foo.png" fs) as Hfirst.
  pose proof (validFilenameMaker_files E "/tmp/foo.png" fs) as Hfs1.
  destruct (validFilenameMaker E "/tmp/foo.png" fs) as [[validFile err] fs1].
  simpl in Hfirst, Hfs1. subst fs1.
  unfold mbind at 1, IO_bind at 1, os.Create at 1. rewrite Hcreate.
  unfold mbind at 1, IO_bind at 1.
  pose proof (create_siblings_files E (Z.to_nat maxIndices) 0
                (<["/tmp/foo.png" := ""]> fs) Hcreate) as (Hnew & Hold & Hother).
  destruct (create_siblings E "/tmp" (Z.to_nat maxIndices) 0 _) as [[] fs2].
  simpl in Hnew, Hold, Hother.
  unfold mbind at 1, IO_bind at 1.
  assert (validFilenameMaker E "/tmp/foo.png" fs2
          = (("", Some (errorString
                ("a number (maxIndices) of files have a similar name to "
                 +:+ filepath.Base "/tmp/foo.png"))), fs2)) as ->.
  { rewrite validFilenameMaker_unfold.
    destruct (Hold "/tmp/foo.png") as [x ->]; [rewrite lookup_insert_eq; eauto|].
    rewrite (validFilenameMaker_loop_exhausted E "/tmp/foo.png" _ 0 fs2); [done|].
    intros j Hj. rewrite candidate_foo. by apply Hnew. }
  unfold mbind at 1, IO_bind at 1.
  pose proof (Remove_files "/tmp/foo.png" fs2) as Hrm.
  destruct (os.Remove "/tmp/foo.png" fs2) as [e fs3]. simpl in Hrm. subst fs3.
  unfold mbind at 1, IO_bind at 1.
  pose proof (remove_siblings_files E (Z.to_nat maxIndices) 0
                (delete "/tmp/foo.png" fs2)) as (Hgone & Hstay & Hrest).
  destruct (remove_siblings E "/tmp" (Z.to_nat maxIndices) 0 _) as [[] fs4].
  simpl in Hgone, Hstay, Hrest. unfold mret, IO_ret.
  assert (forall p,
            (forall i, (0 <= i < maxIndices)%Z -> p <> foo_sibling E i) ->
            forall j, (j < Z.to_nat maxIndices)%nat ->
                      p <> foo_sibling E (0 + Z.of_nat j)) as Hidx.
  { intros p Hp j Hj. apply Hp. unfold maxIndices in *. lia. }
  split; [|split; [|split; [|split]]].
  - simpl. destruct err as [e'|].
    + destruct Hfirst as (_ & _ & [x Hx] & _). rewrite Hx.
      rewrite orb_true_r. simpl. split; [done|]. done.
    + destruct Hfirst as [Hfree Hwhich]. simpl. rewrite orb_false_r.
      destruct (decide (validFile = "/tmp/foo.png")) as [->|Hne].
      * rewrite bool_decide_eq_true_2 by done. simpl. done.
      * rewrite bool_decide_eq_false_2 by done. simpl. split; [done|].
        intros Hnone. destruct Hwhich as [?|[[x Hx] _]]; [done|congruence].
  - simpl. rewrite app_nil_r. destruct (_ || _); simpl; [|tauto].
    intros [H|[]]. discriminate H.
  - apply Hstay. by rewrite lookup_delete_eq.
  - intros i Hi. specialize (Hgone (Z.to_nat i)).
    rewrite Z.add_0_l, Z2Nat.id in Hgone by lia. apply Hgone.
    unfold maxIndices in *. lia.
  - intros p Hfoo Hp. rewrite Hrest by (by apply Hidx).
    rewrite lookup_delete_ne by done. rewrite Hother by (by apply Hidx).
    by rewrite lookup_insert_ne.
Qed.

Lemma TestValidFilenameMaker_passes_witness :
  let '(errors, fs') := TestValidFilenameMaker (quiet [] served) "/tmp" two_foos in
  (errors = [] <-> two_foos !! "/tmp/foo.png" = None)
  /\ ~ In "validFilenameMaker failed to confirm an invalid filename." errors
  /\ fs' !! "/tmp/foo.png" = None
  /\ (forall i, (0 <= i < maxIndices)%Z -> fs' !! foo_sibling (quiet [] served) i = None)
  /\ (forall p, p <> "/tmp/foo.png" ->
        (forall i, (0 <= i < maxIndices)%Z -> p <> foo_sibling (quiet [] served) i) ->
        fs' !! p = two_foos !! p).
Proof.
  apply (TestValidFilenameMaker_passes (quiet [] served) two_foos).
  intros name. reflexivity.
Defined.

(** ** Part 8. A run that saves every picture *)

(** The file the Writer is asked to write for a descriptor, and the bytes
    the server sends for it. *)
Definition target (cfg : Config) (r : ResultPair) : string :=
  filepath.Join [outputDir cfg; filepath.Base (MediaUrl r)].

Definition picture (E : Env) (r : ResultPair) : string :=
  match http_Get E (MediaUrl r) with
  | inl resp => rc_data (Body resp)
  | inr _ => ""
  end.

(** The file system once the pictures of [results] are saved. *)
Definition saved (E : Env) (cfg : Config) (results : list ResultPair)
    (fs : FileSystem) : FileSystem :=
  foldl (fun m r => <[target cfg r := picture E r]> m) fs results.

(** The scheduler that lets the pipeline handle one descriptor at a time:
    the Requester sends it, the Spawner launches Getter [i], the Getter
    fetches and posts, the Writer writes, the Getter replies, calls
    [wg.Done] and signals the Spawner. *)
Definition fetch_one (i : nat) : list Action :=
  [ActRequester; ActRequester; ActSpawner; ActGetter i; ActGetter i; ActWriter;
   ActGetter i; ActGetter i; ActGetter i].

Fixpoint fetch_all (n i : nat) : list Action :=
  match n with
  | O => []
  | S n' => (fetch_one i ++ fetch_all n' (S i))%list
  end.

(** After the last descriptor: the Requester closes and replies, the
    Spawner leaves its loop, waits, closes and replies, the Writer replies
    and closes, [main] returns. *)
Definition finale : list Action :=
  [ActRequester; ActRequester; ActRequester;
   ActSpawner; ActSpawner; ActSpawner; ActSpawner; ActSpawner;
   ActWriter; ActWriter; ActWriter; ActMain].

Definition sequential (n : nat) : list Action :=
  ([ActRequester; ActSpawner] ++ fetch_all n 0 ++ finale)%list.

(** The state between two descriptors. *)
Definition between (gs : list Getter) (todo : list ResultPair) (pr : ResultPair)
    (fs : FileSystem) (obs : list OperationReply) : State := {|
  req := ReqRange todo; spa := SpaRecv; wri := WriRecv; mainpc := MainRecv;
  getters := gs; pair := pr; wg := 1; currentRoutines := 0;
  closed_chanPair := false; closed_getAndWrite := false; closed_opStatus := false;
  files := fs; observed := obs; crashed := false;
|}.

Definition returned (r : ResultPair) : Getter :=
  {| url := MediaUrl r; gpc := GetExit |}.

Lemma run_app E cfg sched1 sched2 s :
  run E cfg (sched1 ++ sched2) s
  = match run E cfg sched1 s with
    | Some s' => run E cfg sched2 s'
    | None => None
    end.
Proof.
  revert s. induction sched1 as [|a sched1 IH]; intros s; simpl; [done|].
  destruct (step E cfg a s); [apply IH|done].
Qed.

Lemma lookup_snoc {A} (l : list A) x : (l ++ [x])%list !! length l = Some x.
Proof. by rewrite lookup_app_r, Nat.sub_diag by lia. Qed.

Lemma alter_snoc {A} (f : A -> A) (l : list A) x :
  alter f (length l) (l ++ [x])%list = (l ++ [f x])%list.
Proof.
  induction l as [|y l IH]; [done|].
  change (alter f (length (y :: l)) ((y :: l) ++ [x])%list)
    with (y :: alter f (length l) (l ++ [x])%list).
  by rewrite IH.
Qed.

Lemma run_step E cfg a sched s s' :
  step E cfg a s = Some s' -> run E cfg (a :: sched) s = run E cfg sched s'.
Proof. intros H. simpl. by rewrite H. Qed.

Ltac unfold_step :=
  cbv [step halted step_requester step_spawner step_getter step_writer step_main
       send_reply set_req set_spa set_wri set_mainpc set_getters set_pair set_wg
       set_currentRoutines close_chanPair close_getAndWrite close_opStatus
       set_files log crash set_gpc req spa wri mainpc getters pair wg
       currentRoutines closed_chanPair closed_getAndWrite closed_opStatus files
       observed crashed orb url gpc name content].

Section sequential.

Variable E : Env.
Variable cfg : Config.

Hypothesis budget : (maxRoutines cfg <= 1)%Z.
Hypothesis creates : forall p, os_Create_fails E p = None.
Hypothesis writes : forall p b, file_Write_fails E p b = None.

(** The server answers for the descriptor and its body can be read. *)
Definition served_well (r : ResultPair) : Prop :=
  exists resp, http_Get E (MediaUrl r) = inl resp /\ rc_err (Body resp) = None.

Lemma Writer_Write_quiet r resp fs :
  http_Get E (MediaUrl r) = inl resp -> rc_err (Body resp) = None ->
  fs !! target cfg r = None ->
  Writer_Write E (outputDir cfg) (filepath.Base (MediaUrl r)) (Body resp) fs
  = (None, <[target cfg r := picture E r]> fs).
Proof.
  intros Hget Hread Hfree. unfold picture. rewrite Hget.
  unfold Writer_Write, mbind, IO_bind. fold (target cfg r).
  rewrite validFilenameMaker_unfold, Hfree.
  unfold os.Create. rewrite creates.
  unfold ioutil.ReadAll. rewrite Hread.
  unfold os.Write. rewrite writes.
  by rewrite insert_insert_eq.
Qed.

Lemma fetch_one_run gs r todo pr fs obs :
  served_well r -> fs !! target cfg r = None ->
  run E cfg (fetch_one (length gs)) (between gs (r :: todo) pr fs obs)
  = Some (between (gs ++ [returned r]) todo r (<[target cfg r := picture E r]> fs)
            (obs ++ [deferred_reply "Getter" None])).
Proof.
  intros (resp & Hget & Hread) Hfree.
  assert ((maxRoutines cfg <=? 0 + 1)%Z = true) as Hb by (apply Z.leb_le; lia).
  unfold fetch_one, between, returned.
  erewrite run_step; [|unfold_step; reflexivity].
  erewrite run_step; [|unfold_step; reflexivity].
  erewrite run_step; [|unfold_step; rewrite Hb; reflexivity].
  erewrite run_step;
    [|unfold_step; rewrite lookup_snoc; unfold_step; unfold Getter_Get;
      rewrite Hget, alter_snoc; reflexivity].
  erewrite run_step;
    [|unfold_step; rewrite lookup_snoc; unfold_step; rewrite alter_snoc; reflexivity].
  erewrite run_step;
    [|unfold_step; rewrite (Writer_Write_quiet r resp fs Hget Hread Hfree);
      reflexivity].
  erewrite run_step;
    [|unfold_step; rewrite lookup_snoc; unfold_step; rewrite alter_snoc; reflexivity].
  erewrite run_step;
    [|unfold_step; rewrite lookup_snoc; unfold_step; rewrite alter_snoc; reflexivity].
  erewrite run_step;
    [|unfold_step; rewrite lookup_snoc; unfold_step; rewrite alter_snoc; reflexivity].
  reflexivity.
Qed.

Lemma saved_snoc results r fs :
  saved E cfg (results ++ [r]) fs
  = <[target cfg r := picture E r]> (saved E cfg results fs).
Proof. unfold saved. by rewrite foldl_app. Qed.

Lemma saved_cons r results fs :
  saved E cfg (r :: results) fs
  = saved E cfg results (<[target cfg r := picture E r]> fs).
Proof. done. Qed.

Lemma fetch_all_run todo : forall gs pr fs obs,
  Forall served_well todo ->
  NoDup (map (target cfg) todo) ->
  Forall (fun r => fs !! target cfg r = None) todo ->
  exists pr',
    run E cfg (fetch_all (length todo) (length gs)) (between gs todo pr fs obs)
    = Some (between (gs ++ map returned todo) [] pr' (saved E cfg todo fs)
              (obs ++ replicate (length todo) (deferred_reply "Getter" None))).
Proof.
  induction todo as [|r todo IH]; intros gs pr fs obs Hserved Hdup Hfree.
  { exists pr. simpl. by rewrite !app_nil_r. }
  apply Forall_cons in Hserved as [Hr Hserved].
  apply Forall_cons in Hfree as [Hfr Hfree].
  simpl in Hdup. apply NoDup_cons in Hdup as [Hnotin Hdup].
  destruct (IH (gs ++ [returned r])%list r (<[target cfg r := picture E r]> fs)
              (obs ++ [deferred_reply "Getter" None])%list Hserved Hdup)
    as [pr' Hrun].
  { rewrite Forall_forall in Hfree. apply Forall_forall. intros r' Hr'.
    rewrite lookup_insert_ne; [by apply Hfree|].
    intros Heq. apply Hnotin. rewrite Heq. apply list_elem_of_In.
    apply in_map. by apply list_elem_of_In. }
  exists pr'. cbn [fetch_all length]. rewrite run_app.
  rewrite (fetch_one_run gs r todo pr fs obs Hr Hfr).
  rewrite length_app in Hrun. change (length [returned r]) with 1%nat in Hrun.
  rewrite Nat.add_1_r in Hrun.
  rewrite Hrun. rewrite saved_cons. cbn [map replicate length].
  by rewrite <- !app_assoc.
Qed.

(** Every picture is in its file. *)
Lemma saved_lookup results fs r :
  NoDup (map (target cfg) results) -> In r results ->
  saved E cfg results fs !! target cfg r = Some (picture E r).
Proof.
  induction results as [|r' results IH] using rev_ind; intros Hdup Hin; [done|].
  rewrite saved_snoc. rewrite map_app in Hdup. simpl in Hdup.
  apply NoDup_app in Hdup as (Hdup & Hnotin & _).
  apply in_app_or in Hin as [Hin|[->|[]]].
  - rewrite lookup_insert_ne; [by apply IH|].
    intros Heq. apply (Hnotin (target cfg r)).
    + apply list_elem_of_In. apply in_map. done.
    + rewrite <- Heq. apply list_elem_of_here.
  - by rewrite lookup_insert_eq.
Qed.

Lemma finale_run gs pr fs obs :
  run E cfg finale (between gs [] pr fs obs)
  = Some {| req := ReqDone; spa := SpaDone; wri := WriDone; mainpc := MainDone;
            getters := gs; pair := pr; wg := 0; currentRoutines := 0;
            closed_chanPair := true; closed_getAndWrite := true;
            closed_opStatus := true; files := fs;
            observed := ((obs ++ [deferred_reply "Requester" None])
                           ++ [deferred_reply "Spawner" None])
                          ++ [deferred_reply "Writer" None];
            crashed := false |}.
Proof. reflexivity. Qed.

End sequential.

(** X25. With a budget of 1 (or less), a server that answers for every
    descriptor, bodies that can be read, files that can be created and
    written, and descriptors whose files have names that differ from each
    other and are not taken, the scheduler that handles one descriptor
    at a time gives a run that saves everything: the process ends without
    a crash, every Getter has returned, every picture is in its file,
    nothing else has changed, and [main] has received N Success replies
    of Getters and then those of the Requester, the Spawner and the
    Writer. *)
Theorem sequential_run_saves_all E cfg fs results :
  Requester_Request E (query cfg) (accKey cfg) = inl results ->
  (maxRoutines cfg <= 1)%Z ->
  (forall p, os_Create_fails E p = None) ->
  (forall p b, file_Write_fails E p b = None) ->
  Forall (served_well E) results ->
  NoDup (map (target cfg) results) ->
  Forall (fun r => fs !! target cfg r = None) results ->
  exists s,
    run E cfg (sequential (length results)) (initial fs) = Some s
    /\ halted s = true /\ crashed s = false
    /\ getters s = map returned results
    /\ files s = saved E cfg results fs
    /\ (forall r, In r results -> files s !! target cfg r = Some (picture E r))
    /\ (forall p, (forall r, In r results -> p <> target cfg r) ->
          files s !! p = fs !! p)
    /\ observed s
       = (replicate (length results) (deferred_reply "Getter" None)
            ++ [deferred_reply "Requester" None; deferred_reply "Spawner" None;
                deferred_reply "Writer" None])%list.
Proof.
  intros Hrequest Hbudget Hcreate Hwrite Hserved Hdup Hfree.
  destruct (fetch_all_run E cfg Hbudget Hcreate Hwrite results []
              {| Title := ""; MediaUrl := "" |} fs [] Hserved Hdup Hfree)
    as [pr' Hloop].
  eexists. split.
  { unfold sequential, initial. rewrite run_app.
    erewrite run_step; [|unfold_step; rewrite Hrequest; reflexivity].
    erewrite run_step; [|unfold_step; reflexivity].
    cbn [run]. rewrite run_app. simpl length in Hloop.
    change (run E cfg (fetch_all (length results) 0)
              (between [] results {| Title := ""; MediaUrl := "" |} fs []))
      with (run E cfg (fetch_all (length results) 0)
              {| req := ReqRange results; spa := SpaRecv; wri := WriRecv;
                 mainpc := MainRecv; getters := [];
                 pair := {| Title := ""; MediaUrl := "" |}; wg := 0 + 1;
                 currentRoutines := 0; closed_chanPair := false;
                 closed_getAndWrite := false; closed_opStatus := false;
                 files := fs; observed := []; crashed := false |}) in Hloop.
    rewrite Hloop. apply finale_run. }
  simpl. split; [done|]. split; [done|]. split; [done|]. split; [done|].
  split; [|split].
  - intros r Hr. by apply saved_lookup.
  - intros p Hp. clear Hloop Hserved Hdup Hfree Hrequest. revert fs.
    induction results as [|r results IH]; intros fs; [done|].
    rewrite saved_cons, IH.
    + rewrite lookup_insert_ne; [done|]. intros Heq. by apply (Hp r); [left|].
    + intros r' Hr'. apply Hp. by right.
  - by rewrite <- !app_assoc.
Qed.

Lemma sequential_run_saves_all_witness :
  exists s,
    run (quiet [pic_a; pic_b] served) (flags 1) (sequential (length [pic_a; pic_b]))
      (initial ∅) = Some s
    /\ halted s = true /\ crashed s = false
    /\ getters s = map returned [pic_a; pic_b]
    /\ files s = saved (quiet [pic_a; pic_b] served) (flags 1) [pic_a; pic_b] ∅
    /\ (forall r, In r [pic_a; pic_b] ->
          files s !! target (flags 1) r
          = Some (picture (quiet [pic_a; pic_b] served) r))
    /\ (forall p, (forall r, In r [pic_a; pic_b] -> p <> target (flags 1) r) ->
          files s !! p = (∅ : FileSystem) !! p)
    /\ observed s
       = (replicate (length [pic_a; pic_b]) (deferred_reply "Getter" None)
            ++ [deferred_reply "Requester" None; deferred_reply "Spawner" None;
                deferred_reply "Writer" None])%list.
Proof.
  apply (sequential_run_saves_all (quiet [pic_a; pic_b] served) (flags 1) ∅
           [pic_a; pic_b]).
  - reflexivity.
  - simpl. lia.
  - intros p. reflexivity.
  - intros p b. reflexivity.
  - repeat constructor; eexists; split; reflexivity.
  - apply (bool_decide_unpack _). vm_compute. exact I.
  - repeat constructor.
Defined.
